(** * Hopscotch hash table (src/hopscotch.c): a shallow embedding

    The C file keeps, per segment, a ring of buckets; each bucket carries a
    hashed key, a payload pointer and the hop bitmap of the keys whose home
    it is.  The embedding follows the C text function by function:

    - pointers into a segment's bucket array are [Z] offsets from
      [bucket_array]; an access outside the array is undefined behaviour
      and is reported as [Fault];
    - the segment lock is a boolean; acquiring a held lock never returns
      and is reported as [Blocked];
    - loops that the C code bounds by a counter recurse on that counter;
      the scan of a bitmap, the [do ... while] of [hs_put] and its restart
      after [hs_resize] take fuel, and running out of it is reported as
      [Timeout].  The section on bounded loops shows which of them can
      never run out;
    - [uint] values wrap at 32 bits where the code does arithmetic on
      them, and the mask of [get_segment_idx] wraps at the width of
      [key_t]; [1 << n] is a shift of a 32-bit [int], defined for
      [0 <= n < 31] and reported as [Fault] otherwise, and so is a
      remainder by zero.  [key_t] and [bitmap_t] are declared in
      hopscotch.h, which is not part of the source file: hashed keys and
      bitmaps are non-negative [Z], a bitmap being at least as wide as an
      [int], so that it holds every bit a defined shift can set.

    [hs_put], [hs_get] and [hs_remove] first route the key to a segment
    and then work on that segment only.  The work on the segment is
    embedded as [hs_put_seg], [hs_get_seg] and [hs_remove_seg] in a state
    monad over the segment; the three public functions apply it to the
    segment that [get_segment_idx] selects.

    Where the C text does not parse ([returne], [this->bucket],
    [*free_bucket->data], the stray [;] after the signatures, the
    undeclared [last_bucket] and [n_buckets_in_segment]) the evident
    reading is taken; nothing else is repaired. *)

From stdpp Require Import base list.
From Stdlib Require Import ZArith Lia Bool.

Local Open Scope Z_scope.

(** ** Data model (lines 47-74) *)

(** [data] is a [void *]; [NULL] is [0].  [hkey] uses [0] as the empty mark. *)
Record hs_bucket_t : Type := mk_bucket {
  data : Z;
  hkey : Z;
  hop_info : Z
}.

(** [bucket_array] is the block the pointer addresses ([[]] for a null
    pointer: no bucket can be accessed through it); [last_bucket] is kept
    as an offset from [bucket_array]. *)
Record hs_segment_t : Type := mk_segment {
  bucket_array : list hs_bucket_t;
  last_bucket : Z;
  lock : bool;
  count : Z;
  timestamp : Z
}.

Record hs_table_t : Type := mk_table {
  segment_array : list hs_segment_t;
  hash : Z -> Z;
  n_buckets_in_segment : Z;
  n_segments : Z;
  hop_range : Z;
  add_range : Z;
  max_tries : Z;
  segment_mask : Z
}.

Definition NULL : Z := 0.

(** [uint] arithmetic wraps at 32 bits. *)
Definition uint_wrap (x : Z) : Z := x mod 2 ^ 32.

(** ** Outcomes and the segment monad *)

Inductive outcome (St A : Type) : Type :=
| Done (a : A) (s : St)
| Fault
| Blocked
| Timeout.

Arguments Done {St A} a s.
Arguments Fault {St A}.
Arguments Blocked {St A}.
Arguments Timeout {St A}.

Definition M (A : Type) : Type := hs_segment_t -> outcome hs_segment_t A.

Definition ret {A} (a : A) : M A := fun s => Done a s.

Definition bind {A B} (m : M A) (k : A -> M B) : M B :=
  fun s =>
    match m s with
    | Done a s' => k a s'
    | Fault => Fault
    | Blocked => Blocked
    | Timeout => Timeout
    end.

Definition fault {A} : M A := fun _ => Fault.
Definition timeout {A} : M A := fun _ => Timeout.

Declare Scope hs_scope.
Delimit Scope hs_scope with hs.
Notation "x <- m ;; k" := (bind m (fun x => k))
  (at level 100, m at next level, right associativity) : hs_scope.
Notation "m ;;; k" := (bind m (fun _ => k))
  (at level 100, right associativity) : hs_scope.
Local Open Scope hs_scope.

(** *** Memory primitives *)

Definition set_buckets (bs : list hs_bucket_t) (s : hs_segment_t) : hs_segment_t :=
  mk_segment bs (last_bucket s) (lock s) (count s) (timestamp s).

Definition set_lock (b : bool) (s : hs_segment_t) : hs_segment_t :=
  mk_segment (bucket_array s) (last_bucket s) b (count s) (timestamp s).

Definition set_timestamp (t : Z) (s : hs_segment_t) : hs_segment_t :=
  mk_segment (bucket_array s) (last_bucket s) (lock s) (count s) t.

Definition load (p : Z) : M hs_bucket_t :=
  fun s =>
    if p <? 0 then Fault
    else match bucket_array s !! Z.to_nat p with
         | Some b => Done b s
         | None => Fault
         end.

Definition store (p : Z) (b : hs_bucket_t) : M unit :=
  fun s =>
    if p <? 0 then Fault
    else match bucket_array s !! Z.to_nat p with
         | Some _ => Done tt (set_buckets (<[Z.to_nat p := b]> (bucket_array s)) s)
         | None => Fault
         end.

Definition get_data (p : Z) : M Z := b <- load p ;; ret (data b).
Definition get_hkey (p : Z) : M Z := b <- load p ;; ret (hkey b).
Definition get_hop_info (p : Z) : M Z := b <- load p ;; ret (hop_info b).

Definition put_data (p v : Z) : M unit :=
  b <- load p ;; store p (mk_bucket v (hkey b) (hop_info b)).
Definition put_hkey (p v : Z) : M unit :=
  b <- load p ;; store p (mk_bucket (data b) v (hop_info b)).
Definition put_hop_info (p v : Z) : M unit :=
  b <- load p ;; store p (mk_bucket (data b) (hkey b) v).

Definition get_last_bucket : M Z := fun s => Done (last_bucket s) s.
Definition get_timestamp : M Z := fun s => Done (timestamp s) s.

(** [seg->timestamp++] on a [volatile uint]. *)
Definition incr_timestamp : M unit :=
  fun s => Done tt (set_timestamp (uint_wrap (timestamp s + 1)) s).

(** The lock macros come from sync.h, which is not part of the source
    file; they are taken as a binary, non-reentrant mutual exclusion. *)
Definition LOCK_ACQUIRE : M unit :=
  fun s => if lock s then Blocked else Done tt (set_lock true s).

Definition LOCK_RELEASE : M unit :=
  fun s => Done tt (set_lock false s).

(** [1 << n] shifts the [int] constant [1], which has 32 bits: the result
    is defined for [0 <= n < 31] only.  A negative count, and a count
    from 31 on, is undefined behaviour. *)
Definition int_shl1 (n : Z) : option Z :=
  if (n <? 0) || (31 <=? n) then None else Some (Z.shiftl 1 n).

Definition shl1 (n : Z) : M Z :=
  match int_shl1 n with
  | Some b => ret b
  | None => fault
  end.

(** [a % b] on unsigned operands: a zero divisor is undefined behaviour. *)
Definition umod (a b : Z) : M Z :=
  if b =? 0 then fault else ret (a mod b).

(** ** check_neighborhood (lines 332-352) *)

(** One recursion step per iteration of [while (hop_info > 0)]. *)
Fixpoint check_neighborhood_loop (n : nat) (table : hs_table_t)
    (hop this_bucket last hk : Z) : M (option Z) :=
  match n with
  | O => timeout
  | S n' =>
      if hop >? 0 then
        if negb (Z.land hop 1 =? 0) then
          let this_bucket :=
            if this_bucket >? last
            then this_bucket - n_buckets_in_segment table
            else this_bucket in
          k <- get_hkey this_bucket ;;
          if hk =? k then ret (Some this_bucket)
          else check_neighborhood_loop n' table (Z.shiftr hop 1) (this_bucket + 1) last hk
        else check_neighborhood_loop n' table (Z.shiftr hop 1) (this_bucket + 1) last hk
      else ret None
  end.

(** The loop shifts [hop_info] right once per round, so it runs at most
    once per bit of [hop_info] plus the final test. *)
Definition bitmap_rounds (hop : Z) : nat := S (Z.to_nat (Z.log2 hop + 1)).

Definition check_neighborhood (table : hs_table_t) (start_bucket hk : Z)
    : M (option Z) :=
  hop <- get_hop_info start_bucket ;;
  last <- get_last_bucket ;;
  check_neighborhood_loop (bitmap_rounds hop) table hop start_bucket last hk.

(** ** find_closer_free_bucket (lines 256-311) *)

(** The inner [for (i = 1; i < bucket_idx; i++, mask <<= 1)]: every set
    bit overwrites [move_distance], so the last one found is kept.  [n]
    counts the remaining iterations. *)
Fixpoint scan_hop_info (n : nat) (i mask hop move_distance : Z) : Z :=
  match n with
  | O => move_distance
  | S n' =>
      let move_distance :=
        if negb (Z.land mask hop =? 0) then i else move_distance in
      scan_hop_info n' (i + 1) (Z.shiftl mask 1) hop move_distance
  end.

(** The exchange made once a donor is found (lines 281-301).  When the
    donor lies past [last_bucket] the C code pulls back [check_bucket],
    not [new_free_bucket]. *)
Definition swap_into_free (table : hs_table_t)
    (free_bucket check_bucket bucket_idx move_distance : Z)
    : M (option Z * Z) :=
  let new_free_bucket := check_bucket + move_distance in
  last <- get_last_bucket ;;
  let check_bucket :=
    if new_free_bucket >? last
    then check_bucket - n_buckets_in_segment table
    else check_bucket in
  hop <- get_hop_info check_bucket ;;
  b <- shl1 bucket_idx ;;
  put_hop_info check_bucket (Z.lor hop b) ;;;
  hop <- get_hop_info check_bucket ;;
  b <- shl1 move_distance ;;
  put_hop_info check_bucket (Z.land hop (Z.lnot b)) ;;;
  d <- get_data new_free_bucket ;;
  put_data free_bucket d ;;;
  k <- get_hkey new_free_bucket ;;
  put_hkey free_bucket k ;;;
  incr_timestamp ;;;
  put_hkey new_free_bucket 0 ;;;
  put_data new_free_bucket NULL ;;;
  ret (Some new_free_bucket, bucket_idx).

(** The [while (bucket_idx > 0)] loop; [n] is [bucket_idx]. *)
Fixpoint find_closer_loop (n : nat) (table : hs_table_t)
    (free_bucket check_bucket : Z) : M (option Z * Z) :=
  match n with
  | O => ret (None, 0)
  | S n' =>
      let bucket_idx := Z.of_nat n in
      hop <- get_hop_info check_bucket ;;
      let move_distance :=
        scan_hop_info (Z.to_nat (bucket_idx - 1)) 1 (Z.shiftl 1 1) hop (-1) in
      if negb (move_distance =? -1) then
        swap_into_free table free_bucket check_bucket bucket_idx move_distance
      else
        last <- get_last_bucket ;;
        let check_bucket := check_bucket + 1 in
        let check_bucket :=
          if check_bucket >? last
          then check_bucket - n_buckets_in_segment table
          else check_bucket in
        find_closer_loop n' table free_bucket check_bucket
  end.

(** Returns the new [*free_bucket] ([None] for [NULL]) and the new
    [*dist_travelled]. *)
Definition find_closer_free_bucket (table : hs_table_t) (free_bucket : Z)
    : M (option Z * Z) :=
  let first_bucket := 0 in
  let check_bucket := free_bucket - uint_wrap (hop_range table - 1) in
  let check_bucket :=
    if check_bucket <? first_bucket
    then check_bucket + n_buckets_in_segment table
    else check_bucket in
  find_closer_loop (Z.to_nat (uint_wrap (hop_range table - 1))) table
    free_bucket check_bucket.

(** ** hs_put (lines 131-182), from the routed segment on *)

(** The probe [for (dist_travelled = 0; dist_travelled < ADD_RANGE; ...)];
    [n] counts the remaining iterations.  [ADD_RANGE] is not defined in
    the file; it is read as the table's [add_range]. *)
Fixpoint probe_free_bucket (n : nat) (table : hs_table_t)
    (free_bucket dist_travelled last : Z) : M (Z * Z) :=
  match n with
  | O => ret (free_bucket, dist_travelled)
  | S n' =>
      k <- get_hkey free_bucket ;;
      if k =? NULL then ret (free_bucket, dist_travelled)
      else
        let free_bucket := free_bucket + 1 in
        let free_bucket :=
          if free_bucket >? last
          then free_bucket - n_buckets_in_segment table
          else free_bucket in
        probe_free_bucket n' table free_bucket (dist_travelled + 1) last
  end.

(** The [do ... while (free_bucket != NULL)] of lines 164-175.  The
    result says whether the function returned from inside the loop; [n]
    bounds the number of rounds. *)
Fixpoint place_or_displace (n : nat) (table : hs_table_t)
    (start_bucket hk dat free_bucket dist_travelled : Z) : M bool :=
  match n with
  | O => timeout
  | S n' =>
      if dist_travelled <? hop_range table then
        hop <- get_hop_info start_bucket ;;
        b <- shl1 dist_travelled ;;
        put_hop_info start_bucket (Z.lor hop b) ;;;
        put_hkey free_bucket hk ;;;
        put_data free_bucket dat ;;;
        LOCK_RELEASE ;;;
        ret true
      else
        r <- find_closer_free_bucket table free_bucket ;;
        match r with
        | (Some free_bucket, dist_travelled) =>
            place_or_displace n' table start_bucket hk dat free_bucket dist_travelled
        | (None, _) => ret false
        end
  end.

(** Lines 135-178: one pass over the segment.  [true]: the call returned
    (key present, or key stored); [false]: control reached line 178. *)
Definition hs_put_pass (fuel : nat) (table : hs_table_t) (hk dat : Z) : M bool :=
  bucket_idx <- umod hk (n_buckets_in_segment table) ;;
  last <- get_last_bucket ;;
  let start_bucket := bucket_idx in
  LOCK_ACQUIRE ;;;
  existing_bucket <- check_neighborhood table start_bucket hk ;;
  match existing_bucket with
  | Some _ => LOCK_RELEASE ;;; ret true
  | None =>
      r <- probe_free_bucket (Z.to_nat (add_range table)) table start_bucket 0 last ;;
      let '(free_bucket, dist_travelled) := r in
      returned <-
        (if dist_travelled <? add_range table
         then place_or_displace fuel table start_bucket hk dat free_bucket dist_travelled
         else ret false) ;;
      if returned : bool then ret true
      else LOCK_RELEASE ;;; ret false
  end.

(** [hs_resize] is an empty function ("Not implemented"). *)
Definition hs_resize : M unit := ret tt.

(** The whole of [hs_put] on the routed segment: after a pass that falls
    through, [resize()] and the recursive [hs_put(table, key, data)].
    The recursive call recomputes the same hashed key and the same
    segment, since nothing in the table has changed. *)
Fixpoint hs_put_seg (fuel : nat) (table : hs_table_t) (hk dat : Z) : M unit :=
  match fuel with
  | O => timeout
  | S fuel' =>
      returned <- hs_put_pass fuel table hk dat ;;
      if returned : bool then ret tt
      else hs_resize ;;; hs_put_seg fuel' table hk dat
  end.

(** ** hs_get (lines 184-212), from the routed segment on *)

(** The [do ... while (try_counter < max_tries && timestamp != seg->timestamp)]. *)
Fixpoint hs_get_loop (n : nat) (table : hs_table_t)
    (start_bucket hk try_counter : Z) : M Z :=
  ts <- get_timestamp ;;
  check_bucket <- check_neighborhood table start_bucket hk ;;
  match check_bucket with
  | Some b => get_data b
  | None =>
      let try_counter := try_counter + 1 in
      ts' <- get_timestamp ;;
      if (try_counter <? max_tries table) && negb (ts =? ts') then
        match n with
        | O => timeout
        | S n' => hs_get_loop n' table start_bucket hk try_counter
        end
      else ret NULL
  end.

Definition hs_get_seg (table : hs_table_t) (hk : Z) : M Z :=
  bucket_idx <- umod hk (n_buckets_in_segment table) ;;
  let start_bucket := bucket_idx in
  hs_get_loop (Z.to_nat (max_tries table)) table start_bucket hk 0.

(** ** hs_remove (lines 214-236), from the routed segment on *)

Definition hs_remove_seg (table : hs_table_t) (hk : Z) : M Z :=
  bucket_idx <- umod hk (n_buckets_in_segment table) ;;
  let start_bucket := bucket_idx in
  LOCK_ACQUIRE ;;;
  check_bucket <- check_neighborhood table start_bucket hk ;;
  match check_bucket with
  | Some b =>
      d <- get_data b ;;
      put_hkey b NULL ;;;
      put_data b NULL ;;;
      hop <- get_hop_info start_bucket ;;
      m <- shl1 (b - start_bucket) ;;
      put_hop_info start_bucket (Z.land hop (Z.lnot m)) ;;;
      ret d
  | None =>
      LOCK_RELEASE ;;;
      ret NULL
  end.

(** ** hs_new (lines 94-129) *)

Definition zero_bucket : hs_bucket_t := mk_bucket 0 0 0.
Definition zero_segment : hs_segment_t := mk_segment [] 0 false 0 0.

(** Modelled from the spec: [ALLOCATE] is a macro of alloc.h, which is not
    part of the source file; the allocator contract is that it "returns
    zero-initialized memory".  A zeroed segment has null [bucket_array]
    and [last_bucket]. *)
Definition ALLOCATE_segments (n : Z) : list hs_segment_t :=
  replicate (Z.to_nat n) zero_segment.

Definition ALLOCATE_buckets (n : Z) : list hs_bucket_t :=
  replicate (Z.to_nat n) zero_bucket.

(** Modelled from the spec: [get_segment_mask] is called but defined
    nowhere in the source file; the spec has "segment_mask = S - 1". *)
Definition get_segment_mask (n_segs : Z) : Z := n_segs - 1.

(** The inner loop of lines 113-116 on the fresh block. *)
Fixpoint clear_buckets (n : nat) (j : nat) (bs : list hs_bucket_t)
    : list hs_bucket_t :=
  match n with
  | O => bs
  | S n' =>
      let bs :=
        match bs !! j with
        | Some b => <[j := mk_bucket (data b) NULL 0]> bs
        | None => bs
        end in
      clear_buckets n' (S j) bs
  end.

(** Lines 107-116, the statements applied to the local [seg]. *)
Definition init_local_seg (n_bkts : Z) (seg : hs_segment_t) : hs_segment_t :=
  let lock := false in
  let count := 0 in
  let timestamp := 0 in
  let bucket_array := ALLOCATE_buckets n_bkts in
  let last_bucket := n_bkts - 1 in
  let bucket_array := clear_buckets (Z.to_nat n_bkts) 0 bucket_array in
  mk_segment bucket_array last_bucket lock count timestamp.

(** The loop of lines 105-117.  [hs_segment_t seg = segment_array[i]]
    copies the element into a local struct; the body works on the copy
    and nothing is written back to [segment_array[i]]. *)
Fixpoint hs_new_loop (n : nat) (i : nat) (n_bkts : Z)
    (segs : list hs_segment_t) : list hs_segment_t :=
  match n with
  | O => segs
  | S n' =>
      let seg := default zero_segment (segs !! i) in
      let seg := init_local_seg n_bkts seg in
      hs_new_loop n' (S i) n_bkts segs
  end.

Definition hs_new (n_segs n_bkts hop add tries : Z) (hash_fn : Z -> Z)
    : hs_table_t :=
  let segs := ALLOCATE_segments n_segs in
  let segs := hs_new_loop (Z.to_nat n_segs) 0 n_bkts segs in
  mk_table segs hash_fn n_bkts n_segs hop add tries (get_segment_mask n_segs).

(** ** Routing and the public operations on the table *)

Section Routing.

(** [key_bits] is [sizeof(key_t) * 8]; [key_t] is declared in hopscotch.h
    and [calculate_hash] in hash.h, neither of which is part of the source
    file. *)
Variable key_bits : Z.
Variable calculate_hash : Z -> Z.

(** [for (i = 0; i < nbits; ++i) mask |= 1 << i;] with [mask] a [key_t].
    [1 << i] is the shift of an [int] whatever the width of [key_t]; the
    loop runs into undefined behaviour ([None]) when [i] reaches 31. *)
Fixpoint segment_mask_loop (n : nat) (i mask : Z) : option Z :=
  match n with
  | O => Some mask
  | S n' =>
      match int_shl1 i with
      | Some b => segment_mask_loop n' (i + 1) (Z.lor mask b mod 2 ^ key_bits)
      | None => None
      end
  end.

(** Lines 320-330.  The function leaves through [return mask;]; the
    statement [return hkey & mask;] after it is never reached.  [nbits]
    is the [uint] truncation of [sizeof(key_t)*8 - log2(n_segments)].
    [None]: the loop has made an undefined shift. *)
Definition get_segment_idx (table : hs_table_t) (hk : Z) : option Z :=
  let nbits := key_bits - Z.log2_up (n_segments table) in
  let mask := segment_mask_loop (Z.to_nat nbits) 0 0 in
  mask.

Definition set_segment (i : nat) (seg : hs_segment_t) (t : hs_table_t) : hs_table_t :=
  mk_table (<[i := seg]> (segment_array t)) (hash t) (n_buckets_in_segment t)
    (n_segments t) (hop_range t) (add_range t) (max_tries t) (segment_mask t).

(** [seg = &(table->segment_array[idx])] followed by the work on [seg]. *)
Definition on_segment {A} (table : hs_table_t) (idx : Z) (m : M A)
    : outcome hs_table_t A :=
  if idx <? 0 then Fault
  else match segment_array table !! Z.to_nat idx with
       | None => Fault
       | Some seg =>
           match m seg with
           | Done a seg' => Done a (set_segment (Z.to_nat idx) seg' table)
           | Fault => Fault
           | Blocked => Blocked
           | Timeout => Timeout
           end
       end.

Definition hs_put (fuel : nat) (table : hs_table_t) (key dat : Z)
    : outcome hs_table_t unit :=
  let hk := calculate_hash key in
  match get_segment_idx table hk with
  | Some idx => on_segment table idx (hs_put_seg fuel table hk dat)
  | None => Fault
  end.

Definition hs_get (table : hs_table_t) (key : Z) : outcome hs_table_t Z :=
  let hk := calculate_hash key in
  match get_segment_idx table hk with
  | Some idx => on_segment table idx (hs_get_seg table hk)
  | None => Fault
  end.

Definition hs_remove (table : hs_table_t) (key : Z) : outcome hs_table_t Z :=
  let hk := calculate_hash key in
  match get_segment_idx table hk with
  | Some idx => on_segment table idx (hs_remove_seg table hk)
  | None => Fault
  end.

End Routing.

(** * Vocabulary of the properties *)

(** ** Observations on computations *)

(** [preserves f m]: whenever [m] returns, the observation [f] of the
    segment is what it was before. *)
Definition preserves {X A} (f : hs_segment_t -> X) (m : M A) : Prop :=
  forall s a s', m s = Done a s' -> f s' = f s.

Definition with_lock {A} (b : bool) (o : outcome hs_segment_t A)
    : outcome hs_segment_t A :=
  match o with
  | Done a s => Done a (set_lock b s)
  | Fault => Fault
  | Blocked => Blocked
  | Timeout => Timeout
  end.

(** [lock_blind m]: [m] neither reads nor writes the lock. *)
Definition lock_blind {A} (m : M A) : Prop :=
  forall s b, m (set_lock b s) = with_lock b (m s).

(** [no_timeout m]: [m] never runs out of fuel. *)
Definition no_timeout {A} (m : M A) : Prop := forall s, m s <> Timeout.

(** [returns P m]: every value [m] returns satisfies [P]. *)
Definition returns {A} (P : A -> Prop) (m : M A) : Prop :=
  forall s a s', m s = Done a s' -> P a.

(** ** Segments reachable by serialized operations *)

(** A fresh segment is what lines 107-116 build. *)
Definition fresh_segment (table : hs_table_t) : hs_segment_t :=
  init_local_seg (n_buckets_in_segment table) zero_segment.

Inductive reachable (table : hs_table_t) : hs_segment_t -> Prop :=
| reach_fresh : reachable table (fresh_segment table)
| reach_put fuel hk dat s s' :
    reachable table s ->
    hs_put_seg fuel table hk dat s = Done tt s' ->
    reachable table s'
| reach_remove hk s d s' :
    reachable table s ->
    hs_remove_seg table hk s = Done d s' ->
    reachable table s'.

(** Runs [hs_put] for each pair in turn. *)
Fixpoint hs_put_all (fuel : nat) (table : hs_table_t) (kvs : list (Z * Z))
    : M unit :=
  match kvs with
  | [] => ret tt
  | (k, v) :: rest => hs_put_seg fuel table k v ;;; hs_put_all fuel table rest
  end.

(** ** The invariants the claims speak of *)

Definition non_empty (b : hs_bucket_t) : bool := negb (hkey b =? NULL).

Fixpoint count_non_empty (bs : list hs_bucket_t) : Z :=
  match bs with
  | [] => 0
  | b :: bs' => (if non_empty b then 1 else 0) + count_non_empty bs'
  end.

(** Offset of the bucket at index [i] from the home of the key it holds. *)
Definition home_offset (table : hs_table_t) (i : nat) (b : hs_bucket_t) : Z :=
  (Z.of_nat i - hkey b mod n_buckets_in_segment table)
    mod n_buckets_in_segment table.

Definition hop_bound (table : hs_table_t) (seg : hs_segment_t) : Prop :=
  forall i b,
    bucket_array seg !! i = Some b ->
    hkey b <> NULL ->
    home_offset table i b < hop_range table.

(** The state a displacement leaves: the candidate home [cb] trades bit
    [j] for bit [idx], the free bucket [fb] takes over key and value of
    the donor [cb + j], the donor is emptied, and the timestamp ticks. *)
Definition displaced (s : hs_segment_t) (fb cb idx j : Z)
    (bC bD bF : hs_bucket_t) : hs_segment_t :=
  mk_segment
    (<[Z.to_nat (cb + j) := mk_bucket NULL 0 (hop_info bD)]>
       (<[Z.to_nat fb := mk_bucket (data bD) (hkey bD) (hop_info bF)]>
          (<[Z.to_nat cb :=
               mk_bucket (data bC) (hkey bC)
                 (Z.land (Z.lor (hop_info bC) (Z.shiftl 1 idx))
                    (Z.lnot (Z.shiftl 1 j)))]>
             (bucket_array s))))
    (last_bucket s) (lock s) (count s) (uint_wrap (timestamp s + 1)).

(** ** The ring of a segment, seen from a home bucket *)

(** A segment has the shape its table announces. *)
Definition seg_wf (table : hs_table_t) (s : hs_segment_t) : Prop :=
  0 < n_buckets_in_segment table /\
  Z.of_nat (length (bucket_array s)) = n_buckets_in_segment table /\
  last_bucket s = n_buckets_in_segment table - 1.

(** The index of the bucket at offset [i] from [start], wrapping. *)
Definition slot (table : hs_table_t) (start i : Z) : Z :=
  (start + i) mod n_buckets_in_segment table.

Definition bucket_at (s : hs_segment_t) (p : Z) : option hs_bucket_t :=
  if p <? 0 then None else bucket_array s !! Z.to_nat p.

Definition hkey_at (s : hs_segment_t) (p : Z) : option Z :=
  hkey <$> bucket_at s p.

Definition data_at (s : hs_segment_t) (p : Z) : option Z :=
  data <$> bucket_at s p.

Definition hop_info_at (s : hs_segment_t) (p : Z) : option Z :=
  hop_info <$> bucket_at s p.

(** Every set bit of the bitmap [hop] is below [n]. *)
Definition bits_below (hop n : Z) : Prop :=
  0 <= hop /\ forall j, Z.testbit hop j = true -> j < n.

(** [r] is the answer of a scan of the bitmap [hop] of home [start] for
    the key [hk], from offset [i] on: the bucket of the lowest set bit
    whose bucket holds [hk], or nothing when there is none. *)
Definition first_match_from (table : hs_table_t) (s : hs_segment_t)
    (start hop hk i : Z) (r : option Z) : Prop :=
  match r with
  | Some p =>
      exists j, i <= j /\ Z.testbit hop j = true /\ p = slot table start j /\
        hkey_at s p = Some hk /\
        forall j', i <= j' < j -> Z.testbit hop j' = true ->
          hkey_at s (slot table start j') <> Some hk
  | None =>
      forall j, i <= j -> Z.testbit hop j = true ->
        hkey_at s (slot table start j) <> Some hk
  end.

(** The key [hk] is in no bucket that the bitmap of its home points to. *)
Definition absent (table : hs_table_t) (s : hs_segment_t) (hk hop : Z) : Prop :=
  forall j, Z.testbit hop j = true ->
    hkey_at s (slot table (hk mod n_buckets_in_segment table) j) <> Some hk.

(** The shape of a segment: how many buckets it has and where the last
    one is. *)
Definition shape (s : hs_segment_t) : nat * Z :=
  (length (bucket_array s), last_bucket s).

(** [s'] differs from [s] in bucket contents at most. *)
Definition same_frame (s s' : hs_segment_t) : Prop :=
  length (bucket_array s') = length (bucket_array s) /\
  last_bucket s' = last_bucket s /\
  lock s' = lock s /\
  count s' = count s /\
  timestamp s' = timestamp s.

(** * Tables and segments used as concrete inputs *)

(** One segment of 16 buckets, hop range 4, add range 16, 3 tries. *)
Definition small_table : hs_table_t :=
  mk_table [init_local_seg 16 zero_segment] (fun k => k) 16 1 4 16 3
    (get_segment_mask 1).

(** Keys 16, 32, 48 have home 0 and keys 3, 19, 35 have home 3; they fill
    buckets 0 to 5.  Key 64 has home 0 and finds bucket 6 free. *)
Definition seven_puts : list (Z * Z) :=
  [(16, 1); (32, 2); (48, 3); (3, 4); (19, 5); (35, 6); (64, 7)].

(** The segment after [seven_puts]: 35 was moved from bucket 5 to bucket
    6, 64 sits in bucket 5, and bucket 0 has bit 3 set for it. *)
Definition after_seven_puts : hs_segment_t :=
  mk_segment
    ([mk_bucket 1 16 15; mk_bucket 2 32 0; mk_bucket 3 48 0;
      mk_bucket 4 3 11; mk_bucket 5 19 0; mk_bucket 7 64 0;
      mk_bucket 6 35 0] ++ replicate 9 zero_bucket)
    15 false 0 1.

Definition four_puts : list (Z * Z) := [(16, 1); (32, 2); (48, 3); (64, 4)].

(** Buckets 0 to 3 hold the four keys of home 0. *)
Definition after_four_puts : hs_segment_t :=
  mk_segment
    ([mk_bucket 1 16 15; mk_bucket 2 32 0; mk_bucket 3 48 0; mk_bucket 4 64 0]
       ++ replicate 12 zero_bucket)
    15 false 0 0.

(** Keys 16 and 32 have home 0, keys 1 and 17 home 1 and key 2 home 2.
    The first four fill buckets 0 to 3; key 32 finds bucket 4 free, at
    distance 4. *)
Definition five_puts : list (Z * Z) :=
  [(16, 1); (1, 2); (17, 3); (2, 4); (32, 7)].

(** The segment after [five_puts]: 17 was moved from bucket 2 to bucket
    4, 32 sits in bucket 2, and bucket 0 has bit 3 set for it. *)
Definition after_five_puts : hs_segment_t :=
  mk_segment
    ([mk_bucket 1 16 9; mk_bucket 2 1 9; mk_bucket 7 32 2; mk_bucket 4 2 0;
      mk_bucket 3 17 0] ++ replicate 11 zero_bucket)
    15 false 0 1.

(** [after_five_puts] after a further [put(32, 99)]: 2 was moved from
    bucket 3 to bucket 5 and bucket 3 holds key 32 a second time. *)
Definition after_second_put : hs_segment_t :=
  mk_segment
    ([mk_bucket 1 16 9; mk_bucket 2 1 9; mk_bucket 7 32 8; mk_bucket 99 32 0;
      mk_bucket 3 17 0; mk_bucket 4 2 0] ++ replicate 10 zero_bucket)
    15 false 0 2.

(** Key 16 put, then key 32 put, then key 16 removed: bucket 0 is empty
    again, its bitmap still records key 32 in bucket 1, and the lock is
    held. *)
Definition after_put_put_remove : hs_segment_t :=
  mk_segment
    ([mk_bucket 0 0 2; mk_bucket 2 32 0] ++ replicate 14 zero_bucket)
    15 true 0 0.

(** One segment of 8 buckets, hop range 4, add range 8. *)
Definition ring_table : hs_table_t :=
  mk_table [init_local_seg 8 zero_segment] (fun k => k) 8 1 4 8 3
    (get_segment_mask 1).

(** Keys 6, 14, 22 have home 6 and land in buckets 6, 7 and, wrapped, 0;
    key 5 is at its home 5. *)
Definition ring_puts : list (Z * Z) := [(6, 1); (14, 2); (22, 3); (5, 4)].

Definition after_ring_puts : hs_segment_t :=
  mk_segment
    [mk_bucket 3 22 0; zero_bucket; zero_bucket; zero_bucket; zero_bucket;
     mk_bucket 4 5 1; mk_bucket 1 6 7; mk_bucket 2 14 0]
    7 false 0 0.

(** [after_ring_puts] before key 5 was put. *)
Definition after_three_ring_puts : hs_segment_t :=
  mk_segment
    [mk_bucket 3 22 0; zero_bucket; zero_bucket; zero_bucket; zero_bucket;
     zero_bucket; mk_bucket 1 6 7; mk_bucket 2 14 0]
    7 false 0 0.

(** The segment as [find_closer_free_bucket] sees it in the seventh of
    [seven_puts]: buckets 0 to 5 occupied, bucket 6 free, the lock held. *)
Definition six_puts_locked : hs_segment_t :=
  mk_segment
    ([mk_bucket 1 16 7; mk_bucket 2 32 0; mk_bucket 3 48 0;
      mk_bucket 4 3 7; mk_bucket 5 19 0; mk_bucket 6 35 0]
       ++ replicate 10 zero_bucket)
    15 true 0 0.

(** Two buckets, hop range 2, add range 2; both buckets hold a key at
    its home. *)
Definition tiny_table : hs_table_t :=
  mk_table [init_local_seg 2 zero_segment] (fun k => k) 2 1 2 2 3
    (get_segment_mask 1).

Definition tiny_full : hs_segment_t :=
  mk_segment [mk_bucket 7 2 1; mk_bucket 8 3 1] 1 false 0 0.

(** The table [hs_new(4, 16, 8, 16, 3, hash)] was meant to build. *)
Definition four_segment_table : hs_table_t :=
  mk_table (replicate 4 (init_local_seg 16 zero_segment)) (fun k => k)
    16 4 8 16 3 (get_segment_mask 4).

(** A table on which the routing of the source stays in range:
    [get_segment_idx] returns a mask of [key_bits - log2 n_segments] one
    bits; with an 8-bit [key_t] and 16 segments that is 15, the last
    segment.  The segments (16 buckets, hop range 4, add range 16) are set
    up in place the way lines 107-116 set up the local copy. *)
Definition byte_key_table : hs_table_t :=
  mk_table (replicate 16 (init_local_seg 16 zero_segment)) (fun k => k)
    16 16 4 16 3 (get_segment_mask 16).

Definition demo_hash (key : Z) : Z := key.

(** [byte_key_table] after [put(6, 11)]. *)
Definition demo_table : hs_table_t :=
  match hs_put 8 demo_hash 2 byte_key_table 6 11 with
  | Done _ t => t
  | _ => byte_key_table
  end.

(** Runs the table-level [hs_put] for each pair in turn. *)
Fixpoint hs_put_each (key_bits : Z) (calculate_hash : Z -> Z) (fuel : nat)
    (kvs : list (Z * Z)) (table : hs_table_t) : outcome hs_table_t unit :=
  match kvs with
  | [] => Done tt table
  | (k, v) :: rest =>
      match hs_put key_bits calculate_hash fuel table k v with
      | Done _ table' => hs_put_each key_bits calculate_hash fuel rest table'
      | Fault => Fault
      | Blocked => Blocked
      | Timeout => Timeout
      end
  end.

(** * Properties *)

(** ** The home index *)

(** [hkey % n_buckets_in_segment] is defined on a table that has buckets;
    a computation that starts with it and returns has passed it. *)
Lemma umod_at a b s : b <> 0 -> umod a b s = Done (a mod b) s.
Proof.
  intros Hb. unfold umod. apply Z.eqb_neq in Hb. rewrite Hb. reflexivity.
Qed.

Lemma umod_bind {A} a b (k : Z -> M A) s :
  b <> 0 -> bind (umod a b) k s = k (a mod b) s.
Proof. intros Hb. unfold bind. rewrite umod_at by exact Hb. reflexivity. Qed.

Lemma umod_bind_fault {A} a b (k : Z -> M A) s :
  (forall r, k r s = Fault) -> bind (umod a b) k s = Fault.
Proof.
  intros H. unfold bind, umod. destruct (b =? 0); [reflexivity | apply H].
Qed.

Lemma umod_bind_done {A} a b (k : Z -> M A) s r s' :
  bind (umod a b) k s = Done r s' -> b <> 0 /\ k (a mod b) s = Done r s'.
Proof.
  unfold bind, umod. destruct (b =? 0) eqn:E; [discriminate|].
  apply Z.eqb_neq in E. intros H. split; [exact E | exact H].
Qed.

(** ** What a computation leaves alone *)

Section Frame.

Context {X : Type} (f : hs_segment_t -> X).

Lemma preserves_ret {A} (a : A) : preserves f (ret a).
Proof. intros s a' s' H. inversion H. reflexivity. Qed.

Lemma preserves_fault {A} : preserves f (@fault A).
Proof. intros s a s' H. discriminate. Qed.

Lemma preserves_timeout {A} : preserves f (@timeout A).
Proof. intros s a s' H. discriminate. Qed.

Lemma preserves_bind {A B} (m : M A) (k : A -> M B) :
  preserves f m -> (forall a, preserves f (k a)) -> preserves f (bind m k).
Proof.
  intros Hm Hk s b s' H. unfold bind in H.
  destruct (m s) as [a s1| | |] eqn:E; try discriminate.
  rewrite (Hk a s1 b s' H). exact (Hm s a s1 E).
Qed.

Lemma preserves_load p : preserves f (load p).
Proof.
  intros s a s' H. unfold load in H.
  destruct (p <? 0); [discriminate|].
  destruct (bucket_array s !! Z.to_nat p); inversion H. reflexivity.
Qed.

Lemma preserves_get_last_bucket : preserves f get_last_bucket.
Proof. intros s a s' H. inversion H. reflexivity. Qed.

Lemma preserves_get_timestamp : preserves f get_timestamp.
Proof. intros s a s' H. inversion H. reflexivity. Qed.

Lemma preserves_shl1 n : preserves f (shl1 n).
Proof.
  unfold shl1. destruct (int_shl1 n); [apply preserves_ret | apply preserves_fault].
Qed.

Lemma preserves_umod a b : preserves f (umod a b).
Proof.
  unfold umod. destruct (b =? 0); [apply preserves_fault | apply preserves_ret].
Qed.

(** The writing primitives, for an observation that does not look at
    what they write. *)
Lemma preserves_store p b :
  (forall bs s, f (set_buckets bs s) = f s) -> preserves f (store p b).
Proof.
  intros Hf s a s' H. unfold store in H.
  destruct (p <? 0); [discriminate|].
  destruct (bucket_array s !! Z.to_nat p); inversion H. apply Hf.
Qed.

Lemma preserves_lock_acquire :
  (forall b s, f (set_lock b s) = f s) -> preserves f LOCK_ACQUIRE.
Proof.
  intros Hf s a s' H. unfold LOCK_ACQUIRE in H.
  destruct (lock s); inversion H. apply Hf.
Qed.

Lemma preserves_lock_release :
  (forall b s, f (set_lock b s) = f s) -> preserves f LOCK_RELEASE.
Proof. intros Hf s a s' H. inversion H. apply Hf. Qed.

Lemma preserves_incr_timestamp :
  (forall t s, f (set_timestamp t s) = f s) -> preserves f incr_timestamp.
Proof. intros Hf s a s' H. inversion H. apply Hf. Qed.

End Frame.

(** Splits a computation along its binds and branches; the leaves are
    closed by the lemmas of the hint base. *)
Create HintDb hs_frame.

#[local] Hint Resolve preserves_ret preserves_fault preserves_timeout
  preserves_load preserves_get_last_bucket preserves_get_timestamp
  preserves_shl1 preserves_umod : hs_frame.

Ltac frame_step :=
  match goal with
  | |- preserves _ (bind _ _) => apply preserves_bind; [| intros ?]
  | |- preserves _ (if ?c then _ else _) => destruct c
  | |- preserves _ (match ?x with Some _ => _ | None => _ end) => destruct x
  | |- preserves _ (match ?x with (_, _) => _ end) => destruct x
  | |- preserves _ (let '(_, _) := ?x in _) => destruct x
  end.

Ltac frame := repeat frame_step; eauto with hs_frame.

(** *** The readers *)

Lemma preserves_get_hkey {X} (f : hs_segment_t -> X) p : preserves f (get_hkey p).
Proof. unfold get_hkey. frame. Qed.

Lemma preserves_get_data {X} (f : hs_segment_t -> X) p : preserves f (get_data p).
Proof. unfold get_data. frame. Qed.

Lemma preserves_get_hop_info {X} (f : hs_segment_t -> X) p :
  preserves f (get_hop_info p).
Proof. unfold get_hop_info. frame. Qed.

#[local] Hint Resolve preserves_get_hkey preserves_get_data
  preserves_get_hop_info : hs_frame.

Lemma preserves_check_neighborhood_loop {X} (f : hs_segment_t -> X)
    n table hop this last hk :
  preserves f (check_neighborhood_loop n table hop this last hk).
Proof.
  revert hop this.
  induction n as [|n IH]; intros hop this; simpl; frame.
Qed.

Lemma preserves_check_neighborhood {X} (f : hs_segment_t -> X) table start hk :
  preserves f (check_neighborhood table start hk).
Proof.
  unfold check_neighborhood. frame.
  apply preserves_check_neighborhood_loop.
Qed.

#[local] Hint Resolve preserves_check_neighborhood : hs_frame.

Lemma preserves_hs_get_loop {X} (f : hs_segment_t -> X) n table start hk tries :
  preserves f (hs_get_loop n table start hk tries).
Proof.
  revert tries.
  induction n as [|n IH]; intros tries; simpl; frame.
Qed.

Lemma preserves_hs_get_seg {X} (f : hs_segment_t -> X) table hk :
  preserves f (hs_get_seg table hk).
Proof.
  unfold hs_get_seg. apply preserves_bind; [apply preserves_umod|].
  intros start. apply preserves_hs_get_loop.
Qed.

(** *** From the segment to the table *)

Lemma set_segment_same i seg t :
  segment_array t !! i = Some seg -> set_segment i seg t = t.
Proof.
  intros H. destruct t as [segs h nb ns hr ar mt sm]. unfold set_segment. simpl in *.
  f_equal. apply list_insert_id. exact H.
Qed.

Lemma on_segment_preserves_id {A} (m : M A) table idx a table' :
  preserves (fun s => s) m ->
  on_segment table idx m = Done a table' -> table' = table.
Proof.
  intros Hm H. unfold on_segment in H.
  destruct (idx <? 0); [discriminate|].
  destruct (segment_array table !! Z.to_nat idx) as [seg|] eqn:E; [|discriminate].
  destruct (m seg) as [a' seg'| | |] eqn:Em; try discriminate.
  inversion H; subst. rewrite (Hm seg a seg' Em).
  apply set_segment_same. exact E.
Qed.

(** ** The bounded loops do not run out of fuel *)

Lemma no_timeout_ret {A} (a : A) : no_timeout (ret a).
Proof. intros s. discriminate. Qed.

Lemma no_timeout_fault {A} : no_timeout (@fault A).
Proof. intros s. discriminate. Qed.

Lemma no_timeout_bind_returns {A B} (P : A -> Prop) (m : M A) (k : A -> M B) :
  no_timeout m -> returns P m -> (forall a, P a -> no_timeout (k a)) ->
  no_timeout (bind m k).
Proof.
  intros Hm HP Hk s. unfold bind.
  destruct (m s) as [a s1| | |] eqn:E; try discriminate.
  - apply Hk. exact (HP s a s1 E).
  - destruct (Hm s E).
Qed.

Lemma no_timeout_bind {A B} (m : M A) (k : A -> M B) :
  no_timeout m -> (forall a, no_timeout (k a)) -> no_timeout (bind m k).
Proof.
  intros Hm Hk. apply (no_timeout_bind_returns (fun _ => True)); auto.
  intros s a s' _. exact I.
Qed.

Lemma no_timeout_load p : no_timeout (load p).
Proof.
  intros s. unfold load. destruct (p <? 0); [discriminate|].
  destruct (bucket_array s !! Z.to_nat p); discriminate.
Qed.

Lemma no_timeout_store p b : no_timeout (store p b).
Proof.
  intros s. unfold store. destruct (p <? 0); [discriminate|].
  destruct (bucket_array s !! Z.to_nat p); discriminate.
Qed.

Lemma no_timeout_shl1 n : no_timeout (shl1 n).
Proof.
  unfold shl1. destruct (int_shl1 n); [apply no_timeout_ret | apply no_timeout_fault].
Qed.

Lemma no_timeout_umod a b : no_timeout (umod a b).
Proof.
  unfold umod. destruct (b =? 0); [apply no_timeout_fault | apply no_timeout_ret].
Qed.

Lemma no_timeout_get_last_bucket : no_timeout get_last_bucket.
Proof. intros s. discriminate. Qed.

Lemma no_timeout_get_timestamp : no_timeout get_timestamp.
Proof. intros s. discriminate. Qed.

Lemma no_timeout_incr_timestamp : no_timeout incr_timestamp.
Proof. intros s. discriminate. Qed.

Lemma no_timeout_lock_acquire : no_timeout LOCK_ACQUIRE.
Proof. intros s. unfold LOCK_ACQUIRE. destruct (lock s); discriminate. Qed.

Lemma no_timeout_lock_release : no_timeout LOCK_RELEASE.
Proof. intros s. discriminate. Qed.

Create HintDb hs_total.

#[local] Hint Resolve no_timeout_ret no_timeout_fault no_timeout_load
  no_timeout_store no_timeout_shl1 no_timeout_umod no_timeout_get_last_bucket
  no_timeout_get_timestamp no_timeout_incr_timestamp no_timeout_lock_acquire
  no_timeout_lock_release : hs_total.

Ltac total_step :=
  match goal with
  | |- no_timeout (bind _ _) => apply no_timeout_bind; [| intros ?]
  | |- no_timeout (if ?c then _ else _) => destruct c
  | |- no_timeout (match ?x with Some _ => _ | None => _ end) => destruct x
  end.

Ltac total := repeat total_step; eauto with hs_total.

Lemma no_timeout_get_hkey p : no_timeout (get_hkey p).
Proof. unfold get_hkey. total. Qed.

Lemma no_timeout_get_data p : no_timeout (get_data p).
Proof. unfold get_data. total. Qed.

Lemma no_timeout_get_hop_info p : no_timeout (get_hop_info p).
Proof. unfold get_hop_info. total. Qed.

Lemma no_timeout_put_hkey p v : no_timeout (put_hkey p v).
Proof. unfold put_hkey. total. Qed.

Lemma no_timeout_put_data p v : no_timeout (put_data p v).
Proof. unfold put_data. total. Qed.

Lemma no_timeout_put_hop_info p v : no_timeout (put_hop_info p v).
Proof. unfold put_hop_info. total. Qed.

#[local] Hint Resolve no_timeout_get_hkey no_timeout_get_data
  no_timeout_get_hop_info no_timeout_put_hkey no_timeout_put_data
  no_timeout_put_hop_info : hs_total.

(** [n] rounds are enough for a bitmap below [2 ^ (n - 1)]. *)
Lemma no_timeout_check_neighborhood_loop n table hop this last hk :
  hop < 2 ^ Z.of_nat n ->
  no_timeout (check_neighborhood_loop (S n) table hop this last hk).
Proof.
  revert hop this. induction n as [|n IH]; intros hop this Hhop.
  - cbn [check_neighborhood_loop].
    destruct (hop >? 0) eqn:E; [|apply no_timeout_ret].
    apply Z.gtb_lt in E. simpl in Hhop. lia.
  - assert (Hhalf : Z.shiftr hop 1 < 2 ^ Z.of_nat n).
    { rewrite Z.shiftr_div_pow2 by lia. change (2 ^ 1) with 2.
      apply Z.div_lt_upper_bound; [lia|].
      rewrite Nat2Z.inj_succ, Z.pow_succ_r in Hhop by lia. exact Hhop. }
    remember (S n) as m. cbn [check_neighborhood_loop]. subst m.
    destruct (hop >? 0); [|apply no_timeout_ret].
    destruct (negb (Z.land hop 1 =? 0)); [|apply IH; exact Hhalf].
    apply no_timeout_bind; [apply no_timeout_get_hkey|]. intros k.
    destruct (hk =? k); [apply no_timeout_ret | apply IH; exact Hhalf].
Qed.

Lemma bitmap_rounds_enough hop :
  hop < 2 ^ Z.of_nat (Z.to_nat (Z.log2 hop + 1)).
Proof.
  pose proof (Z.log2_nonneg hop) as Hnn.
  rewrite Z2Nat.id by lia.
  destruct (Z.le_gt_cases hop 0) as [Hle|Hgt].
  - pose proof (Z.pow_pos_nonneg 2 (Z.log2 hop + 1)). lia.
  - apply Z.log2_spec in Hgt. rewrite Z.add_1_r. lia.
Qed.

Lemma no_timeout_check_neighborhood table start hk :
  no_timeout (check_neighborhood table start hk).
Proof.
  unfold check_neighborhood. total.
  apply no_timeout_check_neighborhood_loop, bitmap_rounds_enough.
Qed.

#[local] Hint Resolve no_timeout_check_neighborhood : hs_total.

(** In a serialized run the timestamp read after the scan is the one read
    before it, so [hs_get] makes one scan and never comes back for a
    second. *)
Lemma no_timeout_hs_get_loop n table start hk tries :
  no_timeout (hs_get_loop n table start hk tries).
Proof.
  intros seg H.
  assert (Hstep :
    (ts <- get_timestamp ;;
     check_bucket <- check_neighborhood table start hk ;;
     match check_bucket with
     | Some b => get_data b
     | None =>
         ts' <- get_timestamp ;;
         if (tries + 1 <? max_tries table) && negb (ts =? ts') then
           match n with
           | O => timeout
           | S n' => hs_get_loop n' table start hk (tries + 1)
           end
         else ret NULL
     end) seg = Timeout) by (destruct n; exact H).
  clear H. unfold bind, get_timestamp in Hstep.
  destruct (check_neighborhood table start hk seg) as [c s1| | |] eqn:E;
    try discriminate.
  - assert (s1 = seg)
      by exact (preserves_check_neighborhood (fun s => s) table start hk seg c s1 E).
    subst s1. destruct c as [b|].
    + exact (no_timeout_get_data b seg Hstep).
    + cbn beta iota in Hstep.
      rewrite Z.eqb_refl, andb_false_r in Hstep. discriminate.
  - exact (no_timeout_check_neighborhood table start hk seg E).
Qed.

Lemma no_timeout_hs_get_seg table hk : no_timeout (hs_get_seg table hk).
Proof.
  unfold hs_get_seg. apply no_timeout_bind; [apply no_timeout_umod|].
  intros start. apply no_timeout_hs_get_loop.
Qed.

Lemma no_timeout_hs_remove_seg table hk : no_timeout (hs_remove_seg table hk).
Proof. unfold hs_remove_seg. total. Qed.

Lemma returns_ret {A} (P : A -> Prop) (a : A) : P a -> returns P (ret a).
Proof. intros H s a' s' E. inversion E; subst. exact H. Qed.

Lemma returns_bind {A B} (P : B -> Prop) (m : M A) (k : A -> M B) :
  (forall a, returns P (k a)) -> returns P (bind m k).
Proof.
  intros Hk s b s' H. unfold bind in H.
  destruct (m s) as [a s1| | |]; try discriminate.
  exact (Hk a s1 b s' H).
Qed.

Lemma swap_into_free_distance table fb cb idx md :
  returns (fun r => snd r = idx) (swap_into_free table fb cb idx md).
Proof.
  unfold swap_into_free.
  repeat (apply returns_bind; intros ?).
  apply returns_ret. reflexivity.
Qed.

Lemma no_timeout_swap_into_free table fb cb idx md :
  no_timeout (swap_into_free table fb cb idx md).
Proof. unfold swap_into_free. total. Qed.

#[local] Hint Resolve no_timeout_swap_into_free : hs_total.

(** A displacement reports a distance between 1 and the number of
    candidates it had. *)
Lemma find_closer_loop_distance n table fb cb :
  returns (fun r => match fst r with
                    | Some _ => 1 <= snd r <= Z.of_nat n
                    | None => True
                    end)
          (find_closer_loop n table fb cb).
Proof.
  revert cb. induction n as [|n IH]; intros cb.
  - apply returns_ret. exact I.
  - cbn [find_closer_loop]. apply returns_bind. intros hop.
    destruct (negb (scan_hop_info _ _ _ _ _ =? -1)).
    + intros s r s' H.
      pose proof (swap_into_free_distance _ _ _ _ _ _ _ _ H) as Hd.
      cbv beta in Hd. rewrite Hd. destruct (fst r); [lia | exact I].
    + apply returns_bind. intros last s r s' H.
      specialize (IH _ _ _ _ H). cbv beta in IH.
      destruct (fst r); [lia | exact I].
Qed.

Lemma no_timeout_find_closer_loop n table fb cb :
  no_timeout (find_closer_loop n table fb cb).
Proof.
  revert cb. induction n as [|n IH]; intros cb.
  - apply no_timeout_ret.
  - cbn [find_closer_loop]. total.
Qed.

Lemma uint_wrap_small x : 0 <= x < 2 ^ 32 -> uint_wrap x = x.
Proof. intros H. unfold uint_wrap. apply Z.mod_small. exact H. Qed.

Lemma find_closer_free_bucket_distance table fb :
  1 <= hop_range table <= 2 ^ 32 ->
  returns (fun r => match fst r with
                    | Some _ => snd r < hop_range table
                    | None => True
                    end)
          (find_closer_free_bucket table fb).
Proof.
  intros HR s r s' H. unfold find_closer_free_bucket in H.
  apply find_closer_loop_distance in H.
  rewrite uint_wrap_small in H by lia.
  destruct (fst r); [|exact I].
  rewrite Z2Nat.id in H by lia. lia.
Qed.

Lemma no_timeout_find_closer_free_bucket table fb :
  no_timeout (find_closer_free_bucket table fb).
Proof. unfold find_closer_free_bucket. apply no_timeout_find_closer_loop. Qed.

Lemma no_timeout_place_in_range n table start hk dat fb d :
  d < hop_range table ->
  no_timeout (place_or_displace (S n) table start hk dat fb d).
Proof.
  intros Hd. cbn [place_or_displace].
  apply Z.ltb_lt in Hd. rewrite Hd. total.
Qed.

(** The [do ... while] of [hs_put] makes at most two rounds: after a
    displacement the reported distance is below the hop range. *)
Lemma no_timeout_place_or_displace n table start hk dat fb d :
  1 <= hop_range table <= 2 ^ 32 ->
  no_timeout (place_or_displace (S (S n)) table start hk dat fb d).
Proof.
  intros HR.
  destruct (Z.lt_ge_cases d (hop_range table)) as [Hlt|Hge].
  - apply no_timeout_place_in_range. exact Hlt.
  - remember (S n) as m. cbn [place_or_displace]. subst m.
    apply Z.ltb_ge in Hge. rewrite Hge.
    eapply no_timeout_bind_returns.
    + apply no_timeout_find_closer_free_bucket.
    + apply find_closer_free_bucket_distance. exact HR.
    + intros [[fb'|] d'] Hr; simpl in Hr.
      * apply no_timeout_place_in_range. exact Hr.
      * apply no_timeout_ret.
Qed.

Lemma no_timeout_probe_free_bucket n table fb d last :
  no_timeout (probe_free_bucket n table fb d last).
Proof.
  revert fb d. induction n as [|n IH]; intros fb d; simpl; total.
Qed.

#[local] Hint Resolve no_timeout_probe_free_bucket : hs_total.

(** One pass of [hs_put] over the segment always comes to an end: the
    probe looks at no more than [add_range] buckets and at most one
    displacement is made. *)
Lemma no_timeout_hs_put_pass n table hk dat :
  1 <= hop_range table <= 2 ^ 32 ->
  no_timeout (hs_put_pass (S (S n)) table hk dat).
Proof.
  intros HR. unfold hs_put_pass.
  apply no_timeout_bind; [apply no_timeout_umod|]. intros start.
  apply no_timeout_bind; [apply no_timeout_get_last_bucket|]. intros last.
  apply no_timeout_bind; [apply no_timeout_lock_acquire|]. intros _.
  apply no_timeout_bind; [apply no_timeout_check_neighborhood|].
  intros [b|]; [total|].
  apply no_timeout_bind; [apply no_timeout_probe_free_bucket|].
  intros [fb d].
  apply no_timeout_bind; [|intros [|]; total].
  destruct (d <? add_range table); [|apply no_timeout_ret].
  apply no_timeout_place_or_displace. exact HR.
Qed.

(** ** C1: a displaced insertion is recorded at the wrong distance *)

Lemma seven_puts_run :
  hs_put_all 2 small_table seven_puts (fresh_segment small_table)
  = Done tt after_seven_puts.
Proof. vm_compute. reflexivity. Qed.

(** C1. Seven distinct keys are put into a fresh segment; all seven puts
    return, yet [get] of the last key returns [NULL] instead of its
    value 7 (the six other keys are found). *)
Theorem get_misses_displaced_put :
  hs_put_all 2 small_table seven_puts (fresh_segment small_table)
    = Done tt after_seven_puts /\
  hs_get_seg small_table 64 after_seven_puts = Done NULL after_seven_puts /\
  bucket_array after_seven_puts !! 5%nat = Some (mk_bucket 7 64 0) /\
  Forall (fun kv => hs_get_seg small_table (fst kv) after_seven_puts
                    = Done (snd kv) after_seven_puts)
         (take 6 seven_puts).
Proof.
  split; [exact seven_puts_run|].
  split; [vm_compute; reflexivity|].
  split; [reflexivity|].
  repeat constructor.
Qed.

(** The same run through [hs_put] and [hs_get] themselves, on the table
    with 8-bit keys where the routing stays in range: every key goes to
    segment 15. *)
Lemma table_get_misses_displaced_put :
  hs_put_each 8 demo_hash 2 seven_puts byte_key_table
    = Done tt (set_segment 15 after_seven_puts byte_key_table) /\
  hs_get 8 demo_hash (set_segment 15 after_seven_puts byte_key_table) 64
    = Done NULL (set_segment 15 after_seven_puts byte_key_table).
Proof. split; vm_compute; reflexivity. Qed.

(** ** C2: routing *)

Lemma int_shl1_defined n : 0 <= n < 31 -> int_shl1 n = Some (Z.shiftl 1 n).
Proof.
  intros Hn. unfold int_shl1.
  destruct (n <? 0) eqn:E; [apply Z.ltb_lt in E; lia |].
  destruct (31 <=? n) eqn:E'; [apply Z.leb_le in E'; lia | reflexivity].
Qed.

Lemma int_shl1_undefined n : n < 0 \/ 31 <= n -> int_shl1 n = None.
Proof.
  intros Hn. unfold int_shl1.
  destruct (n <? 0) eqn:E; [reflexivity |].
  destruct (31 <=? n) eqn:E'; [reflexivity |].
  apply Z.ltb_ge in E. apply Z.leb_gt in E'. lia.
Qed.

Lemma lor_ones_next_bit i :
  0 <= i -> Z.lor (Z.ones i) (Z.shiftl 1 i) = Z.ones (i + 1).
Proof.
  intros Hi.
  assert (Hland : Z.land (Z.ones i) (Z.shiftl 1 i) = 0).
  { rewrite Z.land_comm, Z.land_ones, Z.shiftl_1_l by exact Hi.
    apply Z_mod_same_full. }
  pose proof (Z.add_lor_land (Z.ones i) (Z.shiftl 1 i)) as Hadd.
  rewrite Hland, Z.add_0_r in Hadd. rewrite Hadd.
  rewrite !Z.ones_equiv, Z.shiftl_1_l, Z.pow_add_r by lia.
  change (2 ^ 1) with 2. lia.
Qed.

Lemma segment_mask_loop_ones key_bits n i :
  0 <= i -> i + Z.of_nat n <= key_bits -> i + Z.of_nat n <= 31 ->
  segment_mask_loop key_bits n i (Z.ones i) = Some (Z.ones (i + Z.of_nat n)).
Proof.
  revert i. induction n as [|n IH]; intros i Hi Hle H31.
  - simpl. do 2 f_equal. lia.
  - cbn [segment_mask_loop]. rewrite int_shl1_defined by lia.
    rewrite lor_ones_next_bit by exact Hi.
    rewrite Z.mod_small.
    + rewrite IH by lia. do 2 f_equal. lia.
    + rewrite Z.ones_equiv. split.
      * pose proof (Z.pow_pos_nonneg 2 (i + 1)). lia.
      * assert (2 ^ (i + 1) <= 2 ^ key_bits)
          by (apply Z.pow_le_mono_r; lia).
        lia.
Qed.

(** A loop that has to shift by 31 or more does not get through. *)
Lemma segment_mask_loop_undefined key_bits n i mask :
  0 <= i <= 31 -> 31 < i + Z.of_nat n ->
  segment_mask_loop key_bits n i mask = None.
Proof.
  revert i mask. induction n as [|n IH]; intros i mask Hi Hn.
  - simpl in Hn. lia.
  - cbn [segment_mask_loop].
    destruct (Z.eq_dec i 31) as [->|Hne]; [reflexivity|].
    rewrite int_shl1_defined by lia. apply IH; lia.
Qed.

(** What [get_segment_idx] returns, for any key, when its
    [key_bits - log2 n_segments] shifts are defined: the number whose low
    [key_bits - log2 n_segments] bits are set. *)
Lemma get_segment_idx_value key_bits table hk :
  Z.log2_up (n_segments table) <= key_bits ->
  key_bits - Z.log2_up (n_segments table) <= 31 ->
  get_segment_idx key_bits table hk
  = Some (2 ^ (key_bits - Z.log2_up (n_segments table)) - 1).
Proof.
  intros Hle H31. unfold get_segment_idx.
  pose proof (Z.log2_up_nonneg (n_segments table)) as Hnn.
  change 0 with (Z.ones 0) at 2.
  assert (Hn : Z.of_nat (Z.to_nat (key_bits - Z.log2_up (n_segments table)))
               = key_bits - Z.log2_up (n_segments table))
    by (apply Z2Nat.id; lia).
  rewrite segment_mask_loop_ones; [| lia | rewrite Hn; lia | rewrite Hn; lia].
  rewrite Hn, Z.ones_equiv, Z.add_0_l, Z.sub_1_r. reflexivity.
Qed.

(** With more than 31 bits to set, the loop shifts the [int] 1 by 31. *)
Lemma get_segment_idx_undefined key_bits table hk :
  31 < key_bits - Z.log2_up (n_segments table) ->
  get_segment_idx key_bits table hk = None.
Proof.
  intros H31. unfold get_segment_idx.
  apply segment_mask_loop_undefined; [lia|].
  rewrite Z2Nat.id by lia. lia.
Qed.

(** C2. The segment index does not depend on the hashed key.  With four
    segments and a 32-bit [key_t] it is [2^30 - 1] for every key, where
    the low two bits of the key [0x11] are 1; that index lies outside the
    segment array, so [hs_get], [hs_put] and [hs_remove] fault.  With
    sixteen segments and an 8-bit [key_t] it is 15 for every key: the key
    [0x11], whose low four bits are 1, is stored in segment 15 and
    segment 1 stays as it was. *)
Theorem segment_index_ignores_key :
  (forall key_bits table h1 h2,
     get_segment_idx key_bits table h1 = get_segment_idx key_bits table h2) /\
  get_segment_idx 32 (hs_new 4 16 8 16 3 (fun k => k)) 17 = Some (2 ^ 30 - 1) /\
  get_segment_idx 32 four_segment_table 17 = Some (2 ^ 30 - 1) /\
  Z.land 17 (4 - 1) = 1 /\
  hs_get 32 (fun k => k) four_segment_table 17 = Fault /\
  hs_put 32 (fun k => k) 1 four_segment_table 17 1 = Fault /\
  hs_remove 32 (fun k => k) four_segment_table 17 = Fault /\
  get_segment_idx 8 byte_key_table 17 = Some 15 /\
  Z.land 17 (16 - 1) = 1 /\
  exists table' seg,
    hs_put 8 (fun k => k) 1 byte_key_table 17 5 = Done tt table' /\
    segment_array table' !! 1%nat = segment_array byte_key_table !! 1%nat /\
    segment_array table' !! 15%nat = Some seg /\
    hkey_at seg (17 mod 16) = Some 17.
Proof.
  split; [reflexivity|].
  split; [apply get_segment_idx_value; vm_compute; discriminate|].
  assert (Hidx : get_segment_idx 32 four_segment_table 17 = Some (2 ^ 30 - 1))
    by (apply get_segment_idx_value; vm_compute; discriminate).
  split; [exact Hidx|].
  split; [reflexivity|].
  unfold hs_get, hs_put, hs_remove. rewrite Hidx.
  split; [reflexivity|]. split; [reflexivity|]. split; [reflexivity|].
  split; [vm_compute; reflexivity|].
  split; [reflexivity|].
  eexists _, _. vm_compute. repeat split; reflexivity.
Qed.

(** ** C3: a second put of a key *)

Lemma lock_blind_ret {A} (a : A) : lock_blind (ret a).
Proof. intros s b. reflexivity. Qed.

Lemma lock_blind_timeout {A} : lock_blind (@timeout A).
Proof. intros s b. reflexivity. Qed.

Lemma lock_blind_bind {A B} (m : M A) (k : A -> M B) :
  lock_blind m -> (forall a, lock_blind (k a)) -> lock_blind (bind m k).
Proof.
  intros Hm Hk s b. unfold bind. rewrite Hm.
  destruct (m s) as [a s1| | |]; simpl; [apply Hk | reflexivity ..].
Qed.

Lemma lock_blind_umod a b : lock_blind (umod a b).
Proof.
  intros s l. unfold umod. destruct (b =? 0); reflexivity.
Qed.

Lemma lock_blind_load p : lock_blind (load p).
Proof.
  intros s b. unfold load. simpl.
  destruct (p <? 0); [reflexivity|].
  destruct (bucket_array s !! Z.to_nat p); reflexivity.
Qed.

Lemma lock_blind_get_hkey p : lock_blind (get_hkey p).
Proof.
  apply lock_blind_bind; [apply lock_blind_load | intros; apply lock_blind_ret].
Qed.

Lemma lock_blind_check_neighborhood_loop n table hop this last hk :
  lock_blind (check_neighborhood_loop n table hop this last hk).
Proof.
  revert hop this.
  induction n as [|n IH]; intros hop this; simpl.
  - apply lock_blind_timeout.
  - destruct (hop >? 0); [|apply lock_blind_ret].
    destruct (negb (Z.land hop 1 =? 0)); [|apply IH].
    apply lock_blind_bind; [apply lock_blind_get_hkey|].
    intros k. destruct (hk =? k); [apply lock_blind_ret | apply IH].
Qed.

Lemma lock_blind_check_neighborhood table start hk :
  lock_blind (check_neighborhood table start hk).
Proof.
  unfold check_neighborhood, get_hop_info.
  repeat (apply lock_blind_bind; [| intros ?]);
    try apply lock_blind_load; try apply lock_blind_ret.
  - intros s b. reflexivity.
  - apply lock_blind_check_neighborhood_loop.
Qed.

Lemma release_after_acquire seg :
  lock seg = false -> set_lock false (set_lock true seg) = seg.
Proof. destruct seg; simpl; intros ->; reflexivity. Qed.

(** A lookup that returns a non-null pointer took it from a bucket that
    the neighbourhood scan found. *)
Lemma hs_get_loop_found n table start hk tries seg v seg' :
  hs_get_loop n table start hk tries seg = Done v seg' ->
  v <> NULL ->
  exists b, check_neighborhood table start hk seg = Done (Some b) seg.
Proof.
  intros H Hv.
  assert (Hstep :
    (ts <- get_timestamp ;;
     check_bucket <- check_neighborhood table start hk ;;
     match check_bucket with
     | Some b => get_data b
     | None =>
         ts' <- get_timestamp ;;
         if (tries + 1 <? max_tries table) && negb (ts =? ts') then
           match n with
           | O => timeout
           | S n' => hs_get_loop n' table start hk (tries + 1)
           end
         else ret NULL
     end) seg = Done v seg') by (destruct n; exact H).
  clear H. unfold bind, get_timestamp in Hstep.
  destruct (check_neighborhood table start hk seg) as [c s1| | |] eqn:E;
    try discriminate.
  assert (s1 = seg)
    by exact (preserves_check_neighborhood (fun s => s) table start hk seg c s1 E).
  subst s1.
  destruct c as [b|]; [exists b; reflexivity|].
  cbn beta iota in Hstep.
  rewrite Z.eqb_refl, andb_false_r in Hstep. inversion Hstep. congruence.
Qed.

(** Where the lookup finds the key and the lock is free, a put of the
    key returns and leaves the segment as it was. *)
Lemma hs_put_seg_present fuel table hk v v' seg :
  lock seg = false ->
  hs_get_seg table hk seg = Done v seg ->
  v <> NULL ->
  hs_put_seg (S fuel) table hk v' seg = Done tt seg.
Proof.
  intros Hlock Hget Hv.
  apply umod_bind_done in Hget as [HB Hget].
  destruct (hs_get_loop_found _ _ _ _ _ _ _ _ Hget Hv) as [b Hb].
  pose proof (lock_blind_check_neighborhood table
                (hk mod n_buckets_in_segment table) hk seg true) as Hblind.
  rewrite Hb in Hblind. simpl in Hblind.
  cbn [hs_put_seg]. unfold hs_put_pass. unfold bind at 1.
  rewrite umod_bind by exact HB.
  unfold bind, get_last_bucket, LOCK_ACQUIRE.
  rewrite Hlock, Hblind. unfold LOCK_RELEASE, ret.
  rewrite release_after_acquire by exact Hlock. reflexivity.
Qed.

(** C3. Five distinct keys are put into a fresh segment, the last one
    key 32 with value 7, and then key 32 is put again with value 99.  The
    second put does not find the key, which the first one stored in
    bucket 2 and recorded under bit 3 of its home (a lookup returns
    [NULL]); it moves key 2 from bucket 3 to bucket 5, stores key 32 with
    99 in bucket 3, and [get(32)] then returns 99 in place of 7.  Second, after [put(16,1)],
    [put(32,2)] and [remove(16)] the lookup of key 32 returns 2, and a
    put of key 32 never returns: the remove has left the lock held. *)
Theorem second_put_rebinds_displaced_key :
  hs_put_all 2 small_table five_puts (fresh_segment small_table)
    = Done tt after_five_puts /\
  bucket_array after_five_puts !! 2%nat = Some (mk_bucket 7 32 2) /\
  hs_get_seg small_table 32 after_five_puts = Done NULL after_five_puts /\
  hs_put_seg 2 small_table 32 99 after_five_puts = Done tt after_second_put /\
  after_second_put <> after_five_puts /\
  bucket_array after_second_put !! 3%nat = Some (mk_bucket 99 32 0) /\
  hs_get_seg small_table 32 after_second_put = Done 99 after_second_put /\
  (exists s,
     hs_put_all 1 small_table [(16, 1); (32, 2)] (fresh_segment small_table)
       = Done tt s /\
     hs_remove_seg small_table 16 s = Done 1 after_put_put_remove) /\
  hs_get_seg small_table 32 after_put_put_remove = Done 2 after_put_put_remove /\
  forall fuel, hs_put_seg (S fuel) small_table 32 99 after_put_put_remove = Blocked.
Proof.
  split; [vm_compute; reflexivity|].
  split; [reflexivity|].
  split; [vm_compute; reflexivity|].
  split; [vm_compute; reflexivity|].
  split; [discriminate|].
  split; [reflexivity|].
  split; [vm_compute; reflexivity|].
  split; [eexists; split; vm_compute; reflexivity|].
  split; [vm_compute; reflexivity|].
  intros fuel. reflexivity.
Qed.

(** ** C4: hs_remove *)

(** C4. In a fresh segment key 16 is put and removed: the remove returns
    the value and a following [get] returns [NULL], but the lock is still
    held, because the path that returns the value has no [LOCK_RELEASE];
    a second remove of the key never returns. *)
Theorem second_remove_blocks :
  exists s1 s2,
    hs_put_seg 1 small_table 16 1 (fresh_segment small_table) = Done tt s1 /\
    hs_remove_seg small_table 16 s1 = Done 1 s2 /\
    lock s2 = true /\
    hs_get_seg small_table 16 s2 = Done NULL s2 /\
    hs_remove_seg small_table 16 s2 = Blocked.
Proof.
  eexists; eexists.
  split; [vm_compute; reflexivity|].
  split; [vm_compute; reflexivity|].
  split; [reflexivity|].
  split; vm_compute; reflexivity.
Qed.

(** The same through [hs_remove] itself, for the key that [demo_table]
    holds. *)
Lemma table_second_remove_blocks :
  exists t,
    hs_remove 8 demo_hash demo_table 6 = Done 11 t /\
    hs_remove 8 demo_hash t 6 = Blocked /\
    hs_put 8 demo_hash 1 t 6 12 = Blocked.
Proof.
  eexists. split; [vm_compute; reflexivity|].
  split; vm_compute; reflexivity.
Qed.

(** In any state: a remove that returns a value found in a bucket leaves
    the lock held. *)
Lemma lock_put_store p b s u s' :
  store p b s = Done u s' -> lock s' = lock s.
Proof. apply (preserves_store lock). reflexivity. Qed.

(** X11.  In every state, an [hs_remove] that returns a non-null value
    returns with the segment lock held. *)
Lemma hs_remove_seg_keeps_lock table hk seg d seg' :
  hs_remove_seg table hk seg = Done d seg' ->
  d <> NULL ->
  lock seg' = true.
Proof.
  unfold hs_remove_seg. intros H Hd.
  apply umod_bind_done in H as [_ H]. unfold bind at 1 in H.
  unfold LOCK_ACQUIRE in H. destruct (lock seg); [discriminate|].
  unfold bind at 1 in H.
  destruct (check_neighborhood table (hk mod n_buckets_in_segment table) hk
              (set_lock true seg)) as [c s1| | |] eqn:E; try discriminate.
  assert (Hs1 : lock s1 = true)
    by exact (preserves_check_neighborhood lock _ _ _ _ _ _ E).
  destruct c as [b|].
  - rewrite <- Hs1. revert H.
    apply (preserves_bind lock); [apply preserves_get_data|]. intros d0.
    unfold put_hkey, put_data, put_hop_info, get_hop_info.
    repeat (apply preserves_bind; [| intros ?]);
      try apply preserves_load; try apply preserves_ret;
      try apply preserves_shl1;
      apply preserves_store; reflexivity.
  - unfold bind, LOCK_RELEASE, ret in H. inversion H. congruence.
Qed.

(** A remove of a key that the scan does not find returns [NULL] and
    leaves the segment as it was. *)
Lemma hs_remove_seg_absent table hk seg :
  n_buckets_in_segment table <> 0 ->
  lock seg = false ->
  check_neighborhood table (hk mod n_buckets_in_segment table) hk seg
    = Done None seg ->
  hs_remove_seg table hk seg = Done NULL seg.
Proof.
  intros HB Hlock Hscan.
  pose proof (lock_blind_check_neighborhood table
                (hk mod n_buckets_in_segment table) hk seg true) as Hblind.
  rewrite Hscan in Hblind. simpl in Hblind.
  unfold hs_remove_seg. rewrite umod_bind by exact HB.
  unfold bind, LOCK_ACQUIRE.
  rewrite Hlock, Hblind. unfold LOCK_RELEASE, ret.
  rewrite release_after_acquire by exact Hlock. reflexivity.
Qed.

(** A key stored past the end of the ring: [check_bucket - start_bucket]
    is negative and the shift in line 230 is undefined. *)
Lemma remove_of_wrapped_key_faults :
  hs_put_all 2 ring_table (take 3 ring_puts) (fresh_segment ring_table)
    = Done tt after_three_ring_puts /\
  hs_remove_seg ring_table 22 after_three_ring_puts = Fault.
Proof. split; vm_compute; reflexivity. Qed.

(** ** C5: hs_new *)

Lemma hs_new_loop_writes_nothing n i n_bkts segs :
  hs_new_loop n i n_bkts segs = segs.
Proof. revert i. induction n as [|n IH]; intros i; [reflexivity | apply IH]. Qed.

Lemma hs_new_segments n_segs n_bkts hop add tries hash_fn :
  segment_array (hs_new n_segs n_bkts hop add tries hash_fn)
  = replicate (Z.to_nat n_segs) zero_segment.
Proof. unfold hs_new. simpl. apply hs_new_loop_writes_nothing. Qed.

(** The local copy, by contrast, is set up as the claim says. *)
Lemma clear_buckets_zero n j m :
  clear_buckets n j (replicate m zero_bucket) = replicate m zero_bucket.
Proof.
  revert j. induction n as [|n IH]; intros j; [reflexivity|].
  simpl. destruct (replicate m zero_bucket !! j) as [b|] eqn:E; [|apply IH].
  apply lookup_replicate in E as [-> Hj].
  change (mk_bucket (data zero_bucket) NULL 0) with zero_bucket.
  rewrite list_insert_id; [apply IH|].
  apply lookup_replicate. split; [reflexivity | exact Hj].
Qed.

Lemma init_local_seg_empty n_bkts seg :
  init_local_seg n_bkts seg
  = mk_segment (replicate (Z.to_nat n_bkts) zero_bucket) (n_bkts - 1) false 0 0.
Proof.
  unfold init_local_seg, ALLOCATE_buckets. rewrite clear_buckets_zero. reflexivity.
Qed.

(** C5. Whatever its arguments, [hs_new] sets up a local copy of each
    segment and never writes it back, so every segment of the returned
    table is as the allocator left it and has no bucket at all.  For
    [hs_new(4, 16, 8, 16, 3, hash)], whose arguments meet the
    preconditions (4 and 16 are powers of two, [8 <= 16 <= 16]), the
    table has four such segments, where each should have 16 empty
    buckets; the local copy is set up that way (16 empty buckets, count
    0, timestamp 0). *)
Theorem hs_new_segments_have_no_buckets :
  (forall n_segs n_bkts hop add tries hash_fn,
     Forall (fun seg => seg = zero_segment /\ length (bucket_array seg) = 0%nat)
       (segment_array (hs_new n_segs n_bkts hop add tries hash_fn))) /\
  segment_array (hs_new 4 16 8 16 3 (fun k => k)) = replicate 4 zero_segment /\
  Forall (fun seg => length (bucket_array seg) <> 16%nat)
    (segment_array (hs_new 4 16 8 16 3 (fun k => k))) /\
  init_local_seg 16 zero_segment
  = mk_segment (replicate 16 zero_bucket) 15 false 0 0.
Proof.
  split.
  { intros. rewrite hs_new_segments. apply Forall_replicate.
    split; reflexivity. }
  split; [apply hs_new_segments|].
  split; [|apply init_local_seg_empty].
  rewrite hs_new_segments. repeat constructor; discriminate.
Qed.

(** ** C6: nothing writes [count] *)

Lemma count_store p b : preserves count (store p b).
Proof. apply preserves_store. reflexivity. Qed.

Lemma count_lock_acquire : preserves count LOCK_ACQUIRE.
Proof. apply preserves_lock_acquire. reflexivity. Qed.

Lemma count_lock_release : preserves count LOCK_RELEASE.
Proof. apply preserves_lock_release. reflexivity. Qed.

Lemma count_incr_timestamp : preserves count incr_timestamp.
Proof. apply preserves_incr_timestamp. reflexivity. Qed.

#[local] Hint Resolve count_store count_lock_acquire count_lock_release
  count_incr_timestamp : hs_frame.

Lemma count_put_hkey p v : preserves count (put_hkey p v).
Proof. unfold put_hkey. frame. Qed.

Lemma count_put_data p v : preserves count (put_data p v).
Proof. unfold put_data. frame. Qed.

Lemma count_put_hop_info p v : preserves count (put_hop_info p v).
Proof. unfold put_hop_info. frame. Qed.

#[local] Hint Resolve count_put_hkey count_put_data count_put_hop_info : hs_frame.

Lemma count_swap_into_free table fb cb idx md :
  preserves count (swap_into_free table fb cb idx md).
Proof. unfold swap_into_free. frame. Qed.

#[local] Hint Resolve count_swap_into_free : hs_frame.

Lemma count_find_closer_loop n table fb cb :
  preserves count (find_closer_loop n table fb cb).
Proof.
  revert cb. induction n as [|n IH]; intros cb.
  - apply preserves_ret.
  - cbn [find_closer_loop]. frame.
Qed.

Lemma count_find_closer_free_bucket table fb :
  preserves count (find_closer_free_bucket table fb).
Proof. unfold find_closer_free_bucket. apply count_find_closer_loop. Qed.

Lemma count_probe_free_bucket n table fb d last :
  preserves count (probe_free_bucket n table fb d last).
Proof.
  revert fb d. induction n as [|n IH]; intros fb d; simpl; frame.
Qed.

#[local] Hint Resolve count_find_closer_free_bucket count_probe_free_bucket
  : hs_frame.

Lemma count_place_or_displace n table start hk dat fb d :
  preserves count (place_or_displace n table start hk dat fb d).
Proof.
  revert fb d. induction n as [|n IH]; intros fb d.
  - apply preserves_timeout.
  - cbn [place_or_displace]. frame.
Qed.

#[local] Hint Resolve count_place_or_displace : hs_frame.

Lemma count_hs_put_pass fuel table hk dat :
  preserves count (hs_put_pass fuel table hk dat).
Proof. unfold hs_put_pass. frame. Qed.

Lemma count_hs_put_seg fuel table hk dat :
  preserves count (hs_put_seg fuel table hk dat).
Proof.
  induction fuel as [|fuel IH].
  - apply preserves_timeout.
  - cbn [hs_put_seg]. unfold hs_resize.
    frame. apply count_hs_put_pass.
Qed.

Lemma count_hs_remove_seg table hk : preserves count (hs_remove_seg table hk).
Proof. unfold hs_remove_seg. frame. Qed.

(** *** States reachable from a fresh segment *)

Lemma reachable_put_all fuel table kvs s s' :
  reachable table s ->
  hs_put_all fuel table kvs s = Done tt s' ->
  reachable table s'.
Proof.
  revert s. induction kvs as [|[k v] rest IH]; intros s Hs H.
  - inversion H; subst. exact Hs.
  - simpl in H. unfold bind in H.
    destruct (hs_put_seg fuel table k v s) as [[] s1| | |] eqn:E; try discriminate.
    eapply IH; [|exact H]. eapply reach_put; eassumption.
Qed.

(** The claim as stated fails: after one put into a fresh segment one
    bucket is occupied and [count] is still 0. *)
Lemma count_is_not_the_number_of_keys :
  ~ (forall seg, reachable small_table seg ->
       count seg = count_non_empty (bucket_array seg)).
Proof.
  intros H.
  assert (Hr : reachable small_table
                 (mk_segment (<[0%nat := mk_bucket 1 16 1]> (replicate 16 zero_bucket))
                    15 false 0 0)).
  { eapply (reach_put small_table 1 16 1); [apply reach_fresh|].
    vm_compute. reflexivity. }
  specialize (H _ Hr). vm_compute in H. discriminate.
Qed.

(** C6 (amended). In every state reachable from a fresh segment by put
    and remove, [count] is 0: neither operation writes it. *)
Theorem count_stays_zero table seg :
  reachable table seg -> count seg = 0.
Proof.
  induction 1 as [|fuel hk dat s s' _ IH H|hk s d s' _ IH H].
  - reflexivity.
  - rewrite (count_hs_put_seg _ _ _ _ _ _ _ H). exact IH.
  - rewrite (count_hs_remove_seg _ _ _ _ _ H). exact IH.
Qed.

Lemma count_stays_zero_witness :
  reachable small_table after_put_put_remove /\
  count after_put_put_remove = 0.
Proof.
  assert (Hr : reachable small_table after_put_put_remove).
  { eapply (reach_remove small_table 16 _ 1).
    - eapply (reachable_put_all 1 small_table [(16, 1); (32, 2)]);
        [apply reach_fresh|]. vm_compute. reflexivity.
    - vm_compute. reflexivity. }
  split; [exact Hr|]. exact (count_stays_zero small_table _ Hr).
Defined.

(** ** C7: the displacement step *)

(** *** The donor scan keeps the largest set bit *)

Lemma land_pow2_eqb_0 i hop :
  0 <= i -> (Z.land (2 ^ i) hop =? 0) = negb (Z.testbit hop i).
Proof.
  intros Hi. destruct (Z.testbit hop i) eqn:E; simpl.
  - apply Z.eqb_neq. intros H.
    assert (Hbit : Z.testbit (Z.land (2 ^ i) hop) i = true).
    { rewrite Z.land_spec, Z.pow2_bits_eqb, Z.eqb_refl, E by exact Hi. reflexivity. }
    rewrite H, Z.bits_0 in Hbit. discriminate.
  - apply Z.eqb_eq. apply Z.bits_inj'. intros k Hk.
    rewrite Z.land_spec, Z.bits_0, Z.pow2_bits_eqb by exact Hi.
    destruct (Z.eqb_spec i k) as [->|]; [rewrite E|]; reflexivity.
Qed.



(** *** One displacement round, step by step *)

Lemma bind_done {A B} (m : M A) (k : A -> M B) s a s' :
  m s = Done a s' -> bind m k s = k a s'.
Proof. intros H. unfold bind. rewrite H. reflexivity. Qed.

Lemma load_at p s b :
  0 <= p -> bucket_array s !! Z.to_nat p = Some b -> load p s = Done b s.
Proof.
  intros Hp Hb. unfold load.
  destruct (p <? 0) eqn:E; [apply Z.ltb_lt in E; lia|].
  rewrite Hb. reflexivity.
Qed.

Lemma store_at p s b0 b :
  0 <= p -> bucket_array s !! Z.to_nat p = Some b0 ->
  store p b s = Done tt (set_buckets (<[Z.to_nat p := b]> (bucket_array s)) s).
Proof.
  intros Hp Hb. unfold store.
  destruct (p <? 0) eqn:E; [apply Z.ltb_lt in E; lia|].
  rewrite Hb. reflexivity.
Qed.

Lemma get_data_at p s b :
  0 <= p -> bucket_array s !! Z.to_nat p = Some b -> get_data p s = Done (data b) s.
Proof. intros Hp Hb. unfold get_data. rewrite (bind_done _ _ _ _ _ (load_at _ _ _ Hp Hb)). reflexivity. Qed.

Lemma get_hkey_at p s b :
  0 <= p -> bucket_array s !! Z.to_nat p = Some b -> get_hkey p s = Done (hkey b) s.
Proof. intros Hp Hb. unfold get_hkey. rewrite (bind_done _ _ _ _ _ (load_at _ _ _ Hp Hb)). reflexivity. Qed.

Lemma get_hop_info_at p s b :
  0 <= p -> bucket_array s !! Z.to_nat p = Some b ->
  get_hop_info p s = Done (hop_info b) s.
Proof. intros Hp Hb. unfold get_hop_info. rewrite (bind_done _ _ _ _ _ (load_at _ _ _ Hp Hb)). reflexivity. Qed.

Lemma put_data_at p v s b :
  0 <= p -> bucket_array s !! Z.to_nat p = Some b ->
  put_data p v s
  = Done tt (set_buckets
               (<[Z.to_nat p := mk_bucket v (hkey b) (hop_info b)]> (bucket_array s)) s).
Proof.
  intros Hp Hb. unfold put_data.
  rewrite (bind_done _ _ _ _ _ (load_at _ _ _ Hp Hb)).
  apply (store_at _ _ b); assumption.
Qed.

Lemma put_hkey_at p v s b :
  0 <= p -> bucket_array s !! Z.to_nat p = Some b ->
  put_hkey p v s
  = Done tt (set_buckets
               (<[Z.to_nat p := mk_bucket (data b) v (hop_info b)]> (bucket_array s)) s).
Proof.
  intros Hp Hb. unfold put_hkey.
  rewrite (bind_done _ _ _ _ _ (load_at _ _ _ Hp Hb)).
  apply (store_at _ _ b); assumption.
Qed.

Lemma put_hop_info_at p v s b :
  0 <= p -> bucket_array s !! Z.to_nat p = Some b ->
  put_hop_info p v s
  = Done tt (set_buckets
               (<[Z.to_nat p := mk_bucket (data b) (hkey b) v]> (bucket_array s)) s).
Proof.
  intros Hp Hb. unfold put_hop_info.
  rewrite (bind_done _ _ _ _ _ (load_at _ _ _ Hp Hb)).
  apply (store_at _ _ b); assumption.
Qed.

Lemma shl1_at n s : 0 <= n < 31 -> shl1 n s = Done (Z.shiftl 1 n) s.
Proof.
  intros Hn. unfold shl1. rewrite (int_shl1_defined n Hn). reflexivity.
Qed.

(** X6.  When the donor does not lie past [last_bucket] and the two
    shift counts [idx] and [j] are below 31, the width at which [1 << n]
    is defined, the exchange is the one described: donor moved into the
    free bucket, bit [idx] set and bit [j] cleared in the candidate home,
    timestamp incremented, donor emptied; the donor is the new free
    bucket and [idx] the new distance. *)
Lemma swap_into_free_in_range table s fb cb idx j bC bD bF :
  0 <= cb -> 0 <= fb -> 0 < j < 31 -> 0 <= idx < 31 ->
  cb + j <= last_bucket s ->
  fb <> cb -> fb <> cb + j ->
  bucket_array s !! Z.to_nat cb = Some bC ->
  bucket_array s !! Z.to_nat (cb + j) = Some bD ->
  bucket_array s !! Z.to_nat fb = Some bF ->
  swap_into_free table fb cb idx j s
  = Done (Some (cb + j), idx) (displaced s fb cb idx j bC bD bF).
Proof.
  intros Hcb Hfb Hj Hidx Hlast Hne1 Hne2 HC HD HF.
  assert (HlenC := lookup_lt_Some _ _ _ HC).
  assert (HlenD := lookup_lt_Some _ _ _ HD).
  assert (HlenF := lookup_lt_Some _ _ _ HF).
  assert (Ncf : Z.to_nat cb <> Z.to_nat fb) by lia.
  assert (Ncd : Z.to_nat cb <> Z.to_nat (cb + j)) by lia.
  assert (Nfd : Z.to_nat fb <> Z.to_nat (cb + j)) by lia.
  assert (Hcj : 0 <= cb + j) by lia.
  unfold swap_into_free.
  rewrite (bind_done get_last_bucket _ s (last_bucket s) s eq_refl).
  assert (Hwrap : (cb + j >? last_bucket s) = false)
    by (rewrite Z.gtb_ltb; apply Z.ltb_ge; exact Hlast).
  rewrite Hwrap.
  (* check_bucket->hop_info |= (1 << bucket_idx) *)
  rewrite (bind_done _ _ _ _ _ (get_hop_info_at _ _ _ Hcb HC)).
  rewrite (bind_done _ _ _ _ _ (shl1_at _ _ Hidx)).
  rewrite (bind_done _ _ _ _ _ (put_hop_info_at _ _ _ _ Hcb HC)).
  set (s1 := set_buckets _ s).
  assert (HC1 : bucket_array s1 !! Z.to_nat cb
                = Some (mk_bucket (data bC) (hkey bC)
                          (Z.lor (hop_info bC) (Z.shiftl 1 idx))))
    by (apply list_lookup_insert_eq; exact HlenC).
  (* check_bucket->hop_info &= ~(1 << move_distance) *)
  rewrite (bind_done _ _ _ _ _ (get_hop_info_at _ _ _ Hcb HC1)).
  rewrite (bind_done _ _ _ _ _ (shl1_at j _ (conj (Z.lt_le_incl _ _ (proj1 Hj)) (proj2 Hj)))).
  rewrite (bind_done _ _ _ _ _ (put_hop_info_at _ _ _ _ Hcb HC1)).
  set (s2 := set_buckets _ s1).
  assert (HD2 : bucket_array s2 !! Z.to_nat (cb + j) = Some bD).
  { subst s2 s1. simpl. rewrite !list_lookup_insert_ne by exact Ncd. exact HD. }
  assert (HF2 : bucket_array s2 !! Z.to_nat fb = Some bF).
  { subst s2 s1. simpl. rewrite !list_lookup_insert_ne by exact Ncf. exact HF. }
  (* free_bucket->data = new_free_bucket->data *)
  rewrite (bind_done _ _ _ _ _ (get_data_at _ _ _ Hcj HD2)).
  rewrite (bind_done _ _ _ _ _ (put_data_at _ _ _ _ Hfb HF2)).
  set (s3 := set_buckets _ s2).
  assert (Hlen2 : (Z.to_nat fb < length (bucket_array s2))%nat)
    by exact (lookup_lt_Some _ _ _ HF2).
  assert (HD3 : bucket_array s3 !! Z.to_nat (cb + j) = Some bD).
  { subst s3. simpl. rewrite list_lookup_insert_ne by exact Nfd. exact HD2. }
  assert (HF3 : bucket_array s3 !! Z.to_nat fb
                = Some (mk_bucket (data bD) (hkey bF) (hop_info bF)))
    by (apply list_lookup_insert_eq; exact Hlen2).
  (* free_bucket->hkey = new_free_bucket->hkey *)
  rewrite (bind_done _ _ _ _ _ (get_hkey_at _ _ _ Hcj HD3)).
  rewrite (bind_done _ _ _ _ _ (put_hkey_at _ _ _ _ Hfb HF3)).
  set (s4 := set_buckets _ s3).
  (* seg->timestamp++ *)
  rewrite (bind_done incr_timestamp _ s4 tt _ eq_refl).
  set (s5 := set_timestamp _ s4).
  assert (HD5 : bucket_array s5 !! Z.to_nat (cb + j) = Some bD).
  { subst s5 s4. simpl. rewrite list_lookup_insert_ne by exact Nfd. exact HD3. }
  (* new_free_bucket->hkey = 0; new_free_bucket->data = NULL *)
  rewrite (bind_done _ _ _ _ _ (put_hkey_at _ 0 _ _ Hcj HD5)).
  set (s6 := set_buckets _ s5).
  assert (HD6 : bucket_array s6 !! Z.to_nat (cb + j)
                = Some (mk_bucket (data bD) 0 (hop_info bD)))
    by (apply list_lookup_insert_eq; exact (lookup_lt_Some _ _ _ HD5)).
  rewrite (bind_done _ _ _ _ _ (put_data_at _ NULL _ _ Hcj HD6)).
  unfold ret, displaced. f_equal.
  subst s6 s5 s4 s3 s2 s1. unfold set_buckets, set_timestamp. simpl.
  rewrite !list_insert_insert_eq. reflexivity.
Qed.

Lemma swap_into_free_some table fb cb idx md :
  returns (fun r => fst r <> None) (swap_into_free table fb cb idx md).
Proof.
  unfold swap_into_free.
  repeat (apply returns_bind; intros ?).
  apply returns_ret. discriminate.
Qed.

(** A displacement that reports failure has written nothing. *)
Lemma find_closer_loop_failure n table fb cb s d s' :
  find_closer_loop n table fb cb s = Done (None, d) s' -> s' = s /\ d = 0.
Proof.
  revert cb. induction n as [|n IH]; intros cb H.
  - inversion H. auto.
  - cbn [find_closer_loop] in H. unfold bind at 1 in H.
    destruct (get_hop_info cb s) as [hop s1| | |] eqn:E; try discriminate.
    assert (s1 = s) by exact (preserves_get_hop_info (fun x => x) _ _ _ _ E).
    subst s1.
    destruct (negb (scan_hop_info _ _ _ _ _ =? -1)).
    + exfalso. exact (swap_into_free_some _ _ _ _ _ _ _ _ H eq_refl).
    + rewrite (bind_done get_last_bucket _ s (last_bucket s) s eq_refl) in H.
      exact (IH _ H).
Qed.

(** X8.  When [find_closer_free_bucket] reports failure (a null
    [*free_bucket]), the segment is as it was before the call and the
    distance it reports is 0. *)
Lemma find_closer_free_bucket_failure table fb s d s' :
  find_closer_free_bucket table fb s = Done (None, d) s' -> s' = s /\ d = 0.
Proof. unfold find_closer_free_bucket. apply find_closer_loop_failure. Qed.

(** *** C7: displacement across the end of the ring *)

(** C7. With the free bucket at index 1 (distance 4 from home 5) the first
    candidate is bucket 6, whose bits 1 and 2 are set; the donor chosen is
    at offset 2, one past [last_bucket].  The code then moves
    [check_bucket], not the donor pointer, back by the segment length and
    goes on to access bucket -2 and bucket 8: the step faults instead of
    moving the donor, and so does the put of key 13 that needs it. *)
Theorem displacement_faults_on_wrapped_donor :
  hs_put_all 2 ring_table ring_puts (fresh_segment ring_table)
    = Done tt after_ring_puts /\
  scan_hop_info 2 1 2 7 (-1) = 2 /\
  find_closer_free_bucket ring_table 1 (set_lock true after_ring_puts) = Fault /\
  hs_put_seg 2 ring_table 13 5 after_ring_puts = Fault.
Proof.
  split; [vm_compute; reflexivity|].
  split; [reflexivity|].
  split; vm_compute; reflexivity.
Qed.

(** ** C8: the hop range bound *)

(** C8. The same state is reachable from a fresh segment and breaks the
    hop range bound: key 64 (home 0) is stored in bucket 5 while the hop
    range is 4. *)
Theorem displaced_put_breaks_hop_bound :
  reachable small_table after_seven_puts /\
  bucket_array after_seven_puts !! 5%nat = Some (mk_bucket 7 64 0) /\
  home_offset small_table 5 (mk_bucket 7 64 0) = 5 /\
  hop_range small_table = 4 /\
  ~ hop_bound small_table after_seven_puts.
Proof.
  assert (Hr : reachable small_table after_seven_puts).
  { eapply reachable_put_all; [apply reach_fresh | exact seven_puts_run]. }
  split; [exact Hr|]. split; [reflexivity|]. split; [reflexivity|].
  split; [reflexivity|].
  intros H. specialize (H 5%nat (mk_bucket 7 64 0) eq_refl).
  vm_compute in H. assert (Hne : 64 <> 0) by lia.
  specialize (H Hne). discriminate.
Qed.

(** ** C9: the restart after [hs_resize] *)

(** A pass that falls through to line 178 without changing the segment
    is repeated by every restart. *)
Lemma hs_put_seg_falls_through_forever table hk dat seg :
  (forall fuel, hs_put_pass (S fuel) table hk dat seg = Done false seg) ->
  forall fuel, hs_put_seg fuel table hk dat seg = Timeout.
Proof.
  intros Hpass fuel. induction fuel as [|fuel IH]; [reflexivity|].
  cbn [hs_put_seg]. unfold bind. rewrite Hpass. unfold hs_resize, ret.
  exact IH.
Qed.

(** C9. After four puts of keys with home 0 (hop range 4), a fifth such
    key finds its free bucket at distance 4, no donor exists, control
    reaches [resize()] and the recursive call; whatever the fuel, the call
    does not return. *)
Theorem hs_put_restarts_forever :
  hs_put_all 2 small_table four_puts (fresh_segment small_table)
    = Done tt after_four_puts /\
  forall fuel, hs_put_seg fuel small_table 80 5 after_four_puts = Timeout.
Proof.
  split; [vm_compute; reflexivity|].
  apply hs_put_seg_falls_through_forever.
  intros fuel. vm_compute. reflexivity.
Qed.

Lemma table_put_restarts_forever fuel :
  hs_put 8 demo_hash fuel (set_segment 15 after_four_puts byte_key_table) 80 5
  = Timeout.
Proof.
  unfold hs_put.
  assert (Hidx : get_segment_idx 8 (set_segment 15 after_four_puts byte_key_table)
                   (demo_hash 80) = Some 15) by (vm_compute; reflexivity).
  rewrite Hidx. unfold on_segment.
  change (segment_array (set_segment 15 after_four_puts byte_key_table)
            !! Z.to_nat 15) with (Some after_four_puts).
  cbn beta iota.
  rewrite hs_put_seg_falls_through_forever; [reflexivity|].
  intros f. vm_compute. reflexivity.
Qed.

(** ** C10: hs_get only reads *)

(** C10. For every table and key, a call of [hs_get] that returns leaves
    the table exactly as it was: no field of the table, of a segment or
    of a bucket is written. *)
Theorem hs_get_pure_reader key_bits calculate_hash table key r table' :
  hs_get key_bits calculate_hash table key = Done r table' -> table' = table.
Proof.
  unfold hs_get.
  destruct (get_segment_idx key_bits table (calculate_hash key)) as [idx|];
    [|discriminate].
  apply on_segment_preserves_id.
  apply preserves_hs_get_seg.
Qed.

Lemma hs_get_pure_reader_witness :
  hs_get 8 demo_hash demo_table 6 = Done 11 demo_table /\ demo_table = demo_table.
Proof.
  split.
  - vm_compute. reflexivity.
  - apply (hs_get_pure_reader 8 demo_hash demo_table 6 11 demo_table).
    vm_compute. reflexivity.
Defined.

(** * Further properties of the code *)

(** ** The neighbourhood scan *)

Lemma slot_small table start i :
  0 <= start + i < n_buckets_in_segment table -> slot table start i = start + i.
Proof. intros H. unfold slot. apply Z.mod_small. exact H. Qed.

Lemma slot_wrap table start i :
  n_buckets_in_segment table <= start + i < 2 * n_buckets_in_segment table ->
  slot table start i = start + i - n_buckets_in_segment table.
Proof.
  intros H. unfold slot. symmetry.
  apply (Z.mod_unique_pos _ _ 1); lia.
Qed.

Lemma slot_range table start i :
  0 < n_buckets_in_segment table ->
  0 <= slot table start i < n_buckets_in_segment table.
Proof. intros H. unfold slot. apply Z.mod_pos_bound. exact H. Qed.

Lemma bucket_at_in_range table s p :
  seg_wf table s -> 0 <= p < n_buckets_in_segment table ->
  exists b, bucket_array s !! Z.to_nat p = Some b /\ bucket_at s p = Some b.
Proof.
  intros (HB & Hlen & _) Hp.
  destruct (lookup_lt_is_Some_2 (bucket_array s) (Z.to_nat p)) as [b Hb]; [lia|].
  exists b. split; [exact Hb|]. unfold bucket_at.
  destruct (p <? 0) eqn:E; [apply Z.ltb_lt in E; lia | exact Hb].
Qed.

Lemma land_1_eqb_0 h : (Z.land h 1 =? 0) = negb (Z.testbit h 0).
Proof.
  rewrite Z.land_comm. change 1 with (2 ^ 0) at 1.
  apply land_pow2_eqb_0. lia.
Qed.

Lemma first_match_from_skip table s start hop hk i r :
  (Z.testbit hop i = true -> hkey_at s (slot table start i) <> Some hk) ->
  first_match_from table s start hop hk (i + 1) r ->
  first_match_from table s start hop hk i r.
Proof.
  intros Hi Hr. destruct r as [p|]; simpl in *.
  - destruct Hr as (j & Hj & Hbit & Hp & Hk & Hbefore).
    exists j. repeat split; try assumption; [lia|].
    intros j' Hj' Hbit'. destruct (Z.eq_dec j' i) as [->|Hne]; [auto|].
    apply Hbefore; [lia | exact Hbit'].
  - intros j Hj Hbit. destruct (Z.eq_dec j i) as [->|Hne]; [auto|].
    apply Hr; [lia | exact Hbit].
Qed.

Section Scan.

Variables (table : hs_table_t) (s : hs_segment_t) (hk start hop : Z).

Let B := n_buckets_in_segment table.

Hypothesis Hwf : seg_wf table s.
Hypothesis Hstart : 0 <= start < B.
Hypothesis Hbits : forall j, Z.testbit hop j = true -> j < B.

(** The pointer [this_bucket] at offset [i]: not yet pulled back, or
    pulled back once. *)
Let tracks (this i : Z) : Prop :=
  this = start + i \/ (this = start + i - B /\ B <= start + i).

Lemma check_neighborhood_loop_scan n :
  forall i hopcur this,
    0 <= i -> 0 <= hopcur < 2 ^ Z.of_nat n ->
    (forall k, 0 <= k -> Z.testbit hopcur k = Z.testbit hop (i + k)) ->
    tracks this i ->
    exists r,
      check_neighborhood_loop (S n) table hopcur this (B - 1) hk s = Done r s /\
      first_match_from table s start hop hk i r.
Proof.
  assert (HB : 0 < B) by exact (proj1 Hwf).
  assert (Hzero : forall i, 0 <= i ->
            (forall k, 0 <= k -> Z.testbit 0 k = Z.testbit hop (i + k)) ->
            first_match_from table s start hop hk i None).
  { intros i Hi Hrel j Hj Hbit.
    specialize (Hrel (j - i) ltac:(lia)).
    replace (i + (j - i)) with j in Hrel by lia.
    rewrite Z.bits_0, Hbit in Hrel. discriminate. }
  induction n as [|m IH]; intros i hopcur this Hi Hhop Hrel Htr.
  - assert (hopcur = 0) by (simpl in Hhop; lia). subst hopcur.
    exists None. split; [reflexivity | apply Hzero; assumption].
  - remember (S m) as n1. cbn [check_neighborhood_loop]. subst n1.
    destruct (hopcur >? 0) eqn:Epos.
    2:{ assert (hopcur = 0) by (rewrite Z.gtb_ltb in Epos; apply Z.ltb_ge in Epos; lia).
        subst hopcur. exists None. split; [reflexivity | apply Hzero; assumption]. }
    assert (Hhalf : 0 <= Z.shiftr hopcur 1 < 2 ^ Z.of_nat m).
    { split; [apply Z.shiftr_nonneg; lia|].
      rewrite Z.shiftr_div_pow2 by lia. change (2 ^ 1) with 2.
      apply Z.div_lt_upper_bound; [lia|].
      rewrite Nat2Z.inj_succ, Z.pow_succ_r in Hhop by lia. lia. }
    assert (Hrel' : forall k, 0 <= k ->
              Z.testbit (Z.shiftr hopcur 1) k = Z.testbit hop (i + 1 + k)).
    { intros k Hk. rewrite Z.shiftr_spec by exact Hk.
      rewrite Hrel by lia. f_equal. lia. }
    assert (Hbit0 : Z.testbit hopcur 0 = Z.testbit hop i).
    { rewrite Hrel by lia. f_equal. lia. }
    rewrite land_1_eqb_0, negb_involutive, Hbit0.
    destruct (Z.testbit hop i) eqn:Ebit.
    + (* the bit is set: the bucket at offset [i] is examined *)
      assert (HiB : i < B) by exact (Hbits i Ebit).
      assert (Hthis : (if this >? B - 1 then this - n_buckets_in_segment table
                       else this) = slot table start i).
      { fold B. destruct Htr as [->|[-> Hge]].
        - destruct (start + i >? B - 1) eqn:E.
          + rewrite Z.gtb_ltb in E. apply Z.ltb_lt in E.
            rewrite slot_wrap; [reflexivity | fold B; lia].
          + rewrite Z.gtb_ltb in E. apply Z.ltb_ge in E.
            rewrite slot_small; [reflexivity | fold B; lia].
        - destruct (start + i - B >? B - 1) eqn:E.
          + rewrite Z.gtb_ltb in E. apply Z.ltb_lt in E. lia.
          + rewrite slot_wrap; [reflexivity | fold B; lia]. }
      rewrite Hthis.
      pose proof (slot_range table start i HB) as Hrange.
      destruct (bucket_at_in_range table s _ Hwf Hrange) as (b & Hb & Hbat).
      rewrite (bind_done _ _ _ _ _ (get_hkey_at _ _ _ (proj1 Hrange) Hb)).
      assert (Hkat : hkey_at s (slot table start i) = Some (hkey b))
        by (unfold hkey_at; rewrite Hbat; reflexivity).
      destruct (hk =? hkey b) eqn:Ek.
      * apply Z.eqb_eq in Ek. exists (Some (slot table start i)).
        split; [reflexivity|]. exists i.
        split; [lia|]. split; [exact Ebit|]. split; [reflexivity|].
        split; [rewrite Hkat, Ek; reflexivity|].
        intros j' Hj'. lia.
      * apply Z.eqb_neq in Ek.
        destruct (IH (i + 1) (Z.shiftr hopcur 1) (slot table start i + 1))
          as (r & Hrun & Hr); try assumption; try lia.
        { destruct (Z.lt_ge_cases (start + i) B) as [Hlt|Hge].
          - left. rewrite slot_small; [lia | fold B; lia].
          - right. rewrite slot_wrap; [fold B; lia | fold B; lia]. }
        exists r. split; [exact Hrun|].
        apply first_match_from_skip; [|exact Hr].
        intros _. rewrite Hkat. congruence.
    + (* the bit is clear *)
      destruct (IH (i + 1) (Z.shiftr hopcur 1) (this + 1))
        as (r & Hrun & Hr); try assumption; try lia.
      { destruct Htr as [->|[-> Hge]]; [left; lia | right; lia]. }
      exists r. split; [exact Hrun|].
      apply first_match_from_skip; [|exact Hr].
      intros Habs. rewrite Ebit in Habs. discriminate.
Qed.

End Scan.

Lemma bucket_at_lookup s p b :
  bucket_at s p = Some b -> 0 <= p /\ bucket_array s !! Z.to_nat p = Some b.
Proof.
  unfold bucket_at. destruct (p <? 0) eqn:E; [discriminate|].
  apply Z.ltb_ge in E. auto.
Qed.

Lemma bits_below_testbit hop n j :
  bits_below hop n -> Z.testbit hop j = true -> 0 <= j < n.
Proof.
  intros [_ Hb] Hj. split; [|exact (Hb j Hj)].
  destruct (Z.lt_ge_cases j 0) as [Hneg|]; [|assumption].
  rewrite Z.testbit_neg_r in Hj by exact Hneg. discriminate.
Qed.

(** What the scan returns. *)
Lemma check_neighborhood_scan table s start hk hop :
  seg_wf table s ->
  0 <= start < n_buckets_in_segment table ->
  hop_info_at s start = Some hop ->
  bits_below hop (n_buckets_in_segment table) ->
  exists r,
    check_neighborhood table start hk s = Done r s /\
    first_match_from table s start hop hk 0 r.
Proof.
  intros Hwf Hstart Hhop [Hnn Hbits].
  unfold hop_info_at in Hhop.
  destruct (bucket_at s start) as [bS|] eqn:EbS; [|discriminate].
  inversion Hhop; subst hop. apply bucket_at_lookup in EbS as [_ HbS].
  unfold check_neighborhood.
  rewrite (bind_done _ _ _ _ _ (get_hop_info_at _ _ _ (proj1 Hstart) HbS)).
  rewrite (bind_done get_last_bucket _ s (last_bucket s) s eq_refl).
  destruct Hwf as (HB & Hlen & Hlast). rewrite Hlast.
  apply (check_neighborhood_loop_scan table s hk start (hop_info bS));
    try assumption; try lia.
  - repeat split; assumption.
  - split; [exact Hnn | apply bitmap_rounds_enough].
  - intros k _. reflexivity.
Qed.

Lemma hs_get_seg_scan table hk s r :
  0 < n_buckets_in_segment table ->
  check_neighborhood table (hk mod n_buckets_in_segment table) hk s = Done r s ->
  hs_get_seg table hk s
  = match r with Some p => get_data p s | None => Done NULL s end.
Proof.
  intros HB H. unfold hs_get_seg. rewrite umod_bind by lia.
  destruct (Z.to_nat (max_tries table)); cbn [hs_get_loop];
    unfold bind, get_timestamp; rewrite H; (destruct r; [reflexivity|]);
    cbn beta iota; rewrite Z.eqb_refl, andb_false_r; reflexivity.
Qed.

(** X1.  On a well-shaped segment whose home bitmap has no bit at or above
    the segment length, [hs_get] returns the value of the first bucket, in
    the order of the bitmap's set bits and wrapping at the end of the
    segment, that holds the key; it returns [NULL] when no such bucket
    holds it.  The segment is left as it was. *)
Theorem hs_get_seg_first_match table s hk hop :
  seg_wf table s ->
  hop_info_at s (hk mod n_buckets_in_segment table) = Some hop ->
  bits_below hop (n_buckets_in_segment table) ->
  exists r,
    first_match_from table s (hk mod n_buckets_in_segment table) hop hk 0 r /\
    match r with
    | Some p => exists d, data_at s p = Some d /\ hs_get_seg table hk s = Done d s
    | None => hs_get_seg table hk s = Done NULL s
    end.
Proof.
  intros Hwf Hhop Hbits.
  assert (Hstart : 0 <= hk mod n_buckets_in_segment table
                   < n_buckets_in_segment table)
    by (apply Z.mod_pos_bound; exact (proj1 Hwf)).
  destruct (check_neighborhood_scan table s _ hk hop Hwf Hstart Hhop Hbits)
    as (r & Hrun & Hr).
  exists r. split; [exact Hr|].
  rewrite (hs_get_seg_scan _ _ _ _ (proj1 Hwf) Hrun).
  destruct r as [p|]; [|reflexivity].
  destruct Hr as (j & Hj & Hbit & -> & Hk & _).
  pose proof (slot_range table (hk mod n_buckets_in_segment table) j (proj1 Hwf))
    as Hrange.
  destruct (bucket_at_in_range table s _ Hwf Hrange) as (b & Hb & Hbat).
  exists (data b). split; [unfold data_at; rewrite Hbat; reflexivity|].
  apply get_data_at; [lia | exact Hb].
Qed.

Lemma hs_get_seg_first_match_witness :
  exists r,
    first_match_from small_table after_four_puts (48 mod 16) 15 48 0 r /\
    match r with
    | Some p => exists d, data_at after_four_puts p = Some d /\
                          hs_get_seg small_table 48 after_four_puts
                          = Done d after_four_puts
    | None => hs_get_seg small_table 48 after_four_puts = Done NULL after_four_puts
    end.
Proof.
  apply (hs_get_seg_first_match small_table after_four_puts 48 15).
  - unfold seg_wf. simpl. repeat split; lia.
  - reflexivity.
  - split; [lia|]. intros j Hj.
    destruct (Z.lt_ge_cases j 16) as [|Hge]; [assumption|].
    rewrite (Z.bits_above_log2 15 j) in Hj; [discriminate | lia |].
    change (Z.log2 15) with 3. lia.
Defined.

(** ** What a field update changes *)

Lemma same_frame_refl s : same_frame s s.
Proof. repeat split. Qed.

Lemma same_frame_trans s1 s2 s3 :
  same_frame s1 s2 -> same_frame s2 s3 -> same_frame s1 s3.
Proof.
  intros (A1 & A2 & A3 & A4 & A5) (B1 & B2 & B3 & B4 & B5).
  repeat split; congruence.
Qed.

Lemma seg_wf_same_frame table s s' :
  same_frame s s' -> seg_wf table s -> seg_wf table s'.
Proof.
  intros (Hlen & Hlast & _) (HB & Hl & Hla).
  repeat split; [exact HB | rewrite Hlen; exact Hl | rewrite Hlast; exact Hla].
Qed.

Lemma store_effect p b0 b s :
  bucket_at s p = Some b0 ->
  exists s',
    store p b s = Done tt s' /\ same_frame s s' /\
    bucket_at s' p = Some b /\
    forall q, q <> p -> bucket_at s' q = bucket_at s q.
Proof.
  intros Hat. destruct (bucket_at_lookup _ _ _ Hat) as [Hp Hb].
  exists (set_buckets (<[Z.to_nat p := b]> (bucket_array s)) s).
  split; [exact (store_at _ _ _ _ Hp Hb)|].
  split; [repeat split; simpl; apply length_insert|].
  assert (Hneg : (p <? 0) = false) by (apply Z.ltb_ge; exact Hp).
  split.
  - unfold bucket_at. rewrite Hneg. simpl.
    apply list_lookup_insert_eq. exact (lookup_lt_Some _ _ _ Hb).
  - intros q Hq. unfold bucket_at. destruct (q <? 0) eqn:Eq; [reflexivity|].
    apply Z.ltb_ge in Eq. simpl. apply list_lookup_insert_ne. lia.
Qed.

Lemma put_hop_info_effect p v b0 s :
  bucket_at s p = Some b0 ->
  exists s',
    put_hop_info p v s = Done tt s' /\ same_frame s s' /\
    bucket_at s' p = Some (mk_bucket (data b0) (hkey b0) v) /\
    forall q, q <> p -> bucket_at s' q = bucket_at s q.
Proof.
  intros Hat. destruct (bucket_at_lookup _ _ _ Hat) as [Hp Hb].
  unfold put_hop_info. rewrite (bind_done _ _ _ _ _ (load_at _ _ _ Hp Hb)).
  apply (store_effect p b0). exact Hat.
Qed.

Lemma put_hkey_effect p v b0 s :
  bucket_at s p = Some b0 ->
  exists s',
    put_hkey p v s = Done tt s' /\ same_frame s s' /\
    bucket_at s' p = Some (mk_bucket (data b0) v (hop_info b0)) /\
    forall q, q <> p -> bucket_at s' q = bucket_at s q.
Proof.
  intros Hat. destruct (bucket_at_lookup _ _ _ Hat) as [Hp Hb].
  unfold put_hkey. rewrite (bind_done _ _ _ _ _ (load_at _ _ _ Hp Hb)).
  apply (store_effect p b0). exact Hat.
Qed.

Lemma put_data_effect p v b0 s :
  bucket_at s p = Some b0 ->
  exists s',
    put_data p v s = Done tt s' /\ same_frame s s' /\
    bucket_at s' p = Some (mk_bucket v (hkey b0) (hop_info b0)) /\
    forall q, q <> p -> bucket_at s' q = bucket_at s q.
Proof.
  intros Hat. destruct (bucket_at_lookup _ _ _ Hat) as [Hp Hb].
  unfold put_data. rewrite (bind_done _ _ _ _ _ (load_at _ _ _ Hp Hb)).
  apply (store_effect p b0). exact Hat.
Qed.

Lemma get_hop_info_bucket_at p b s :
  bucket_at s p = Some b -> get_hop_info p s = Done (hop_info b) s.
Proof.
  intros Hat. destruct (bucket_at_lookup _ _ _ Hat) as [Hp Hb].
  apply get_hop_info_at; assumption.
Qed.

Lemma get_data_bucket_at p b s :
  bucket_at s p = Some b -> get_data p s = Done (data b) s.
Proof.
  intros Hat. destruct (bucket_at_lookup _ _ _ Hat) as [Hp Hb].
  apply get_data_at; assumption.
Qed.

Lemma get_hkey_bucket_at p b s :
  bucket_at s p = Some b -> get_hkey p s = Done (hkey b) s.
Proof.
  intros Hat. destruct (bucket_at_lookup _ _ _ Hat) as [Hp Hb].
  apply get_hkey_at; assumption.
Qed.

(** Lines 166-168: the bit is set in the home, key and value are written
    to the free bucket.  Only those two buckets change, and of the home
    only its bitmap (unless it is the free bucket itself). *)
Lemma place_effect start fb hk v hop' bS bF s :
  bucket_at s start = Some bS ->
  bucket_at s fb = Some bF ->
  exists s1 s2 s',
    put_hop_info start hop' s = Done tt s1 /\
    put_hkey fb hk s1 = Done tt s2 /\
    put_data fb v s2 = Done tt s' /\
    same_frame s s' /\
    hop_info_at s' start = Some hop' /\
    hkey_at s' fb = Some hk /\
    data_at s' fb = Some v /\
    (forall q, q <> fb ->
       hkey_at s' q = hkey_at s q /\ data_at s' q = data_at s q) /\
    (forall q, q <> start -> hop_info_at s' q = hop_info_at s q).
Proof.
  intros HS HF.
  destruct (put_hop_info_effect start hop' bS s HS) as (s1 & R1 & F1 & A1 & O1).
  assert (HF1 : exists bF1, bucket_at s1 fb = Some bF1 /\
                  (fb = start -> hop_info bF1 = hop')).
  { destruct (Z.eq_dec fb start) as [->|Hne].
    - eexists. split; [exact A1 | reflexivity].
    - exists bF. split; [rewrite O1 by exact Hne; exact HF | tauto]. }
  destruct HF1 as (bF1 & HF1 & Hsame).
  destruct (put_hkey_effect fb hk bF1 s1 HF1) as (s2 & R2 & F2 & A2 & O2).
  destruct (put_data_effect fb v _ s2 A2) as (s3 & R3 & F3 & A3 & O3).
  exists s1, s2, s3. split; [exact R1|]. split; [exact R2|]. split; [exact R3|].
  split; [eauto using same_frame_trans|].
  simpl in A3.
  split.
  { unfold hop_info_at. destruct (Z.eq_dec fb start) as [E|Hne].
    - subst fb. rewrite A3. simpl. f_equal. auto.
    - rewrite O3, O2, A1 by auto. reflexivity. }
  split; [unfold hkey_at; rewrite A3; reflexivity|].
  split; [unfold data_at; rewrite A3; reflexivity|].
  split.
  - intros q Hq. unfold hkey_at, data_at. rewrite O3, O2 by exact Hq.
    destruct (Z.eq_dec q start) as [->|Hne].
    + rewrite A1, HS. split; reflexivity.
    + rewrite O1 by exact Hne. split; reflexivity.
  - intros q Hq. unfold hop_info_at.
    destruct (Z.eq_dec q fb) as [->|Hne].
    + rewrite (O1 fb Hq), HF in HF1. inversion HF1; subst bF1.
      rewrite A3, HF. reflexivity.
    + rewrite O3, O2, O1 by assumption. reflexivity.
Qed.

(** ** The probe for a free bucket *)

Lemma slot_succ table start i :
  0 < n_buckets_in_segment table ->
  (if slot table start i + 1 >? n_buckets_in_segment table - 1
   then slot table start i + 1 - n_buckets_in_segment table
   else slot table start i + 1) = slot table start (i + 1).
Proof.
  intros HB. pose proof (slot_range table start i HB) as Hr.
  assert (Hnext : slot table start (i + 1)
                  = (slot table start i + 1) mod n_buckets_in_segment table).
  { unfold slot. rewrite Z.add_mod_idemp_l by lia. f_equal. lia. }
  rewrite Hnext.
  destruct (slot table start i + 1 >? n_buckets_in_segment table - 1) eqn:E;
    rewrite Z.gtb_ltb in E.
  - apply Z.ltb_lt in E. apply (Z.mod_unique_pos _ _ 1); lia.
  - apply Z.ltb_ge in E. symmetry. apply Z.mod_small. lia.
Qed.

Lemma slot_zero table start :
  0 <= start < n_buckets_in_segment table -> slot table start 0 = start.
Proof. intros H. rewrite slot_small; lia. Qed.

Lemma slot_inj table start i j :
  0 <= start < n_buckets_in_segment table ->
  0 <= i < n_buckets_in_segment table ->
  0 <= j < n_buckets_in_segment table ->
  slot table start i = slot table start j -> i = j.
Proof.
  intros Hs Hi Hj.
  destruct (Z.lt_ge_cases (start + i) (n_buckets_in_segment table));
    destruct (Z.lt_ge_cases (start + j) (n_buckets_in_segment table));
    rewrite ?(slot_small table start i), ?(slot_wrap table start i),
            ?(slot_small table start j), ?(slot_wrap table start j) by lia;
    lia.
Qed.

Section Probe.

Variables (table : hs_table_t) (s : hs_segment_t) (start : Z).

Let B := n_buckets_in_segment table.

Hypothesis Hwf : seg_wf table s.

(** The probe stops at the first empty bucket. *)
Lemma probe_free_bucket_finds d n :
  forall i,
    0 <= i <= d -> d - i < Z.of_nat n ->
    (forall j, i <= j < d -> hkey_at s (slot table start j) <> Some NULL) ->
    hkey_at s (slot table start d) = Some NULL ->
    probe_free_bucket n table (slot table start i) i (B - 1) s
    = Done (slot table start d, d) s.
Proof.
  assert (HB : 0 < B) by exact (proj1 Hwf).
  induction n as [|m IH]; intros i Hi Hn Hocc Hfree; [lia|].
  cbn [probe_free_bucket].
  destruct (bucket_at_in_range table s _ Hwf (slot_range table start i HB))
    as (b & Hb & Hbat).
  rewrite (bind_done _ _ _ _ _ (get_hkey_bucket_at _ _ _ Hbat)).
  destruct (Z.eq_dec i d) as [->|Hne].
  - unfold hkey_at in Hfree. rewrite Hbat in Hfree. inversion Hfree as [Hk].
    rewrite Hk, Z.eqb_refl. reflexivity.
  - assert (Hk : hkey b <> NULL).
    { intros Hk. apply (Hocc i); [lia|].
      unfold hkey_at. rewrite Hbat. simpl. congruence. }
    apply Z.eqb_neq in Hk. rewrite Hk.
    fold B. unfold B at 1 2. rewrite slot_succ by exact HB.
    apply IH; [lia | lia | | exact Hfree].
    intros j Hj. apply Hocc. lia.
Qed.

(** With no empty bucket among the next [n], the probe gives up at
    distance [i + n]. *)
Lemma probe_free_bucket_exhausts n :
  forall i,
    (forall j, i <= j < i + Z.of_nat n ->
       hkey_at s (slot table start j) <> Some NULL) ->
    probe_free_bucket n table (slot table start i) i (B - 1) s
    = Done (slot table start (i + Z.of_nat n), i + Z.of_nat n) s.
Proof.
  assert (HB : 0 < B) by exact (proj1 Hwf).
  induction n as [|m IH]; intros i Hocc.
  - cbn [probe_free_bucket]. unfold ret.
    replace (i + Z.of_nat 0) with i by lia. reflexivity.
  - cbn [probe_free_bucket].
    destruct (bucket_at_in_range table s _ Hwf (slot_range table start i HB))
      as (b & Hb & Hbat).
    rewrite (bind_done _ _ _ _ _ (get_hkey_bucket_at _ _ _ Hbat)).
    assert (Hk : hkey b <> NULL).
    { intros Hk. apply (Hocc i); [lia|].
      unfold hkey_at. rewrite Hbat. simpl. congruence. }
    apply Z.eqb_neq in Hk. rewrite Hk.
    fold B. unfold B at 1 2. rewrite slot_succ by exact HB.
    rewrite IH.
    + replace (i + 1 + Z.of_nat m) with (i + Z.of_nat (S m)) by lia. reflexivity.
    + intros j Hj. apply Hocc. lia.
Qed.

End Probe.

(** ** Insertion without displacement, then lookup *)

Lemma absent_scan table s hk hop :
  seg_wf table s ->
  hop_info_at s (hk mod n_buckets_in_segment table) = Some hop ->
  bits_below hop (n_buckets_in_segment table) ->
  absent table s hk hop ->
  check_neighborhood table (hk mod n_buckets_in_segment table) hk s = Done None s.
Proof.
  intros Hwf Hhop Hbits Habs.
  assert (Hstart : 0 <= hk mod n_buckets_in_segment table
                   < n_buckets_in_segment table)
    by (apply Z.mod_pos_bound; exact (proj1 Hwf)).
  destruct (check_neighborhood_scan table s _ hk hop Hwf Hstart Hhop Hbits)
    as ([p|] & Hrun & Hr); [|exact Hrun].
  destruct Hr as (j & _ & Hbit & -> & Hk & _).
  destruct (Habs j Hbit Hk).
Qed.

Lemma acquire_free s : lock s = false -> LOCK_ACQUIRE s = Done tt (set_lock true s).
Proof. intros H. unfold LOCK_ACQUIRE. rewrite H. reflexivity. Qed.

Lemma scan_under_lock table start hk s r :
  check_neighborhood table start hk s = Done r s ->
  check_neighborhood table start hk (set_lock true s) = Done r (set_lock true s).
Proof.
  intros H. rewrite (lock_blind_check_neighborhood table start hk s true), H.
  reflexivity.
Qed.

Lemma seg_wf_set_lock table b s : seg_wf table s -> seg_wf table (set_lock b s).
Proof. intros H. exact H. Qed.

Lemma bits_below_set_bit hop n d :
  bits_below hop n -> 0 <= d < n -> bits_below (Z.lor hop (Z.shiftl 1 d)) n.
Proof.
  intros [Hnn Hb] Hd. split.
  - apply Z.lor_nonneg. split; [exact Hnn|].
    rewrite Z.shiftl_1_l. apply Z.pow_nonneg. lia.
  - intros j Hj. rewrite Z.lor_spec, Z.shiftl_1_l in Hj.
    apply orb_true_iff in Hj as [Hj|Hj]; [exact (Hb j Hj)|].
    rewrite Z.pow2_bits_eqb in Hj by lia. apply Z.eqb_eq in Hj. lia.
Qed.

Lemma testbit_set_bit hop d j :
  0 <= d ->
  Z.testbit (Z.lor hop (Z.shiftl 1 d)) j = Z.testbit hop j || (d =? j).
Proof.
  intros Hd. rewrite Z.lor_spec, Z.shiftl_1_l, Z.pow2_bits_eqb by exact Hd.
  reflexivity.
Qed.

Section PutThenGet.

Variables (table : hs_table_t) (s : hs_segment_t) (hk v hop d : Z).

Let B := n_buckets_in_segment table.
Let start := hk mod B.

Hypothesis Hwf : seg_wf table s.
Hypothesis Hlock : lock s = false.
Hypothesis Hhop : hop_info_at s start = Some hop.
Hypothesis Hbits : bits_below hop B.
Hypothesis Habs : absent table s hk hop.
Hypothesis Hd : 0 <= d < B.
Hypothesis HdR : d < hop_range table.
Hypothesis HdA : d < add_range table.
Hypothesis Hd31 : d < 31.
Hypothesis Hfree : hkey_at s (slot table start d) = Some NULL.
Hypothesis Hocc : forall j, 0 <= j < d -> hkey_at s (slot table start j) <> Some NULL.

Let fb := slot table start d.

Lemma put_direct_pass fuel :
  exists s4,
    hs_put_pass (S fuel) table hk v s = Done true (set_lock false s4) /\
    same_frame (set_lock true s) s4 /\
    hop_info_at s4 start = Some (Z.lor hop (Z.shiftl 1 d)) /\
    hkey_at s4 fb = Some hk /\
    data_at s4 fb = Some v /\
    (forall q, q <> fb ->
       hkey_at s4 q = hkey_at s q /\ data_at s4 q = data_at s q) /\
    (forall q, q <> start -> hop_info_at s4 q = hop_info_at s q).
Proof.
  assert (HB : 0 < B) by exact (proj1 Hwf).
  assert (Hstart : 0 <= start < B) by (apply Z.mod_pos_bound; exact HB).
  set (s1 := set_lock true s).
  assert (Hwf1 : seg_wf table s1) by exact Hwf.
  (* the key is not found *)
  pose proof (scan_under_lock _ _ _ _ _ (absent_scan table s hk hop Hwf Hhop Hbits Habs))
    as Hscan. fold B start s1 in Hscan.
  (* the probe stops at distance [d] *)
  pose proof (probe_free_bucket_finds table s1 start Hwf1 d
                (Z.to_nat (add_range table)) 0) as Hprobe.
  rewrite slot_zero in Hprobe by exact Hstart.
  specialize (Hprobe ltac:(lia) ltac:(lia) Hocc Hfree).
  rewrite <- (proj2 (proj2 Hwf)) in Hprobe.
  (* the two buckets that are written *)
  unfold hop_info_at in Hhop.
  destruct (bucket_at s start) as [bS|] eqn:EbS; [|discriminate].
  inversion Hhop as [Hhop']. clear Hhop.
  destruct (bucket_at_in_range table s1 fb Hwf1 (slot_range table start d HB))
    as (bF & _ & HbF).
  destruct (place_effect start fb hk v (Z.lor hop (Z.shiftl 1 d)) bS bF s1 EbS HbF)
    as (s2 & s3 & s4 & R1 & R2 & R3 & Hframe & A1 & A2 & A3 & Hother & Hhops).
  exists s4. rewrite ?Hhop'.
  split; [|split; [exact Hframe|]; split; [exact A1|]; split; [exact A2|];
            split; [exact A3|]; split; [exact Hother | exact Hhops]].
  unfold hs_put_pass. rewrite umod_bind by lia. fold B start.
  rewrite (bind_done get_last_bucket _ s (last_bucket s) s eq_refl).
  rewrite (bind_done _ _ _ _ _ (acquire_free s Hlock)). fold s1.
  rewrite (bind_done _ _ _ _ _ Hscan).
  rewrite (bind_done _ _ _ _ _ Hprobe). cbn beta iota.
  assert (EA : (d <? add_range table) = true) by (apply Z.ltb_lt; exact HdA).
  assert (ER : (d <? hop_range table) = true) by (apply Z.ltb_lt; exact HdR).
  assert (Hplace : place_or_displace (S fuel) table start hk v fb d s1
                   = Done true (set_lock false s4)).
  { cbn [place_or_displace]. rewrite ER.
    rewrite (bind_done _ _ _ _ _ (get_hop_info_bucket_at start bS s1 EbS)).
    rewrite (bind_done _ _ _ _ _ (shl1_at d s1 (conj (proj1 Hd) Hd31))).
    rewrite Hhop'.
    rewrite (bind_done _ _ _ _ _ R1), (bind_done _ _ _ _ _ R2),
            (bind_done _ _ _ _ _ R3).
    reflexivity. }
  rewrite EA. fold fb. rewrite (bind_done _ _ _ _ _ Hplace).
  reflexivity.
Qed.

End PutThenGet.

(** X2.  Insert, then look up.  Let the key be absent from the
    neighbourhood of its home, the segment lock free, and the first empty
    bucket from the home, wrapping, lie at a distance [d] below the hop
    range, the add range, the segment length and 31, the width at which
    the shift [1 << dist_travelled] of line 166 is defined.  Then
    [hs_put] returns, releasing the lock, and a following [hs_get] of the
    key returns the value that was put. *)
Theorem hs_put_then_get table s hk v hop d fuel :
  seg_wf table s ->
  lock s = false ->
  hop_info_at s (hk mod n_buckets_in_segment table) = Some hop ->
  bits_below hop (n_buckets_in_segment table) ->
  absent table s hk hop ->
  0 <= d < n_buckets_in_segment table ->
  d < hop_range table ->
  d < add_range table ->
  d < 31 ->
  hkey_at s (slot table (hk mod n_buckets_in_segment table) d) = Some NULL ->
  (forall j, 0 <= j < d ->
     hkey_at s (slot table (hk mod n_buckets_in_segment table) j) <> Some NULL) ->
  exists s',
    hs_put_seg (S fuel) table hk v s = Done tt s' /\
    seg_wf table s' /\ lock s' = false /\
    hs_get_seg table hk s' = Done v s'.
Proof.
  intros Hwf Hlock Hhop Hbits Habs Hd HdR HdA Hd31 Hfree Hocc.
  set (B := n_buckets_in_segment table) in *.
  set (start := hk mod B) in *.
  assert (HB : 0 < B) by exact (proj1 Hwf).
  assert (Hstart : 0 <= start < B) by (apply Z.mod_pos_bound; exact HB).
  destruct (put_direct_pass table s hk v hop d Hwf Hlock Hhop Hbits Habs Hd
              HdR HdA Hd31 Hfree Hocc fuel)
    as (s4 & Hpass & Hframe & A1 & A2 & A3 & Hother & _).
  fold B in A1, A2, A3, Hother. fold start in A1, A2, A3, Hother.
  set (fb := slot table start d) in *.
  set (hop' := Z.lor hop (Z.shiftl 1 d)) in *.
  set (s' := set_lock false s4).
  assert (Hwf' : seg_wf table s').
  { apply (seg_wf_set_lock table false).
    apply (seg_wf_same_frame table (set_lock true s)); [exact Hframe | exact Hwf]. }
  exists s'. split.
  { cbn [hs_put_seg]. rewrite (bind_done _ _ _ _ _ Hpass). reflexivity. }
  split; [exact Hwf'|]. split; [reflexivity|].
  (* the scan of the new state *)
  assert (Hbits' : bits_below hop' B) by (apply bits_below_set_bit; assumption).
  destruct (check_neighborhood_scan table s' start hk hop' Hwf' Hstart A1 Hbits')
    as (r & Hrun & Hr).
  rewrite (hs_get_seg_scan table hk s' r HB Hrun).
  assert (Hbitd : Z.testbit hop' d = true).
  { unfold hop'. rewrite testbit_set_bit by lia.
    rewrite Z.eqb_refl. apply orb_true_r. }
  assert (Hr' : r = Some fb).
  { destruct r as [p|].
    - destruct Hr as (j & Hj & Hbit & -> & Hk & Hbefore).
      destruct (bits_below_testbit _ _ _ Hbits' Hbit) as [_ HjB].
      destruct (Z.lt_trichotomy j d) as [Hlt|[->|Hgt]].
      + exfalso.
        assert (Hne : slot table start j <> fb).
        { intros E. apply (slot_inj table start j d) in E; [lia | | lia | lia].
          exact Hstart. }
        unfold hop' in Hbit. rewrite testbit_set_bit in Hbit by lia.
        apply orb_true_iff in Hbit as [Hbit|Hbit];
          [|apply Z.eqb_eq in Hbit; lia].
        apply (Habs j Hbit). fold B start.
        rewrite <- (proj1 (Hother _ Hne)). exact Hk.
      + reflexivity.
      + exfalso. apply (Hbefore d); [lia | exact Hbitd | exact A2].
    - exfalso. apply (Hr d); [lia | exact Hbitd | exact A2]. }
  subst r.
  unfold data_at in A3.
  destruct (bucket_at s4 fb) as [b|] eqn:Eb; [|discriminate].
  inversion A3 as [Hdata].
  rewrite (get_data_bucket_at fb b s' Eb). reflexivity.
Qed.

Lemma hs_put_then_get_witness :
  exists s',
    hs_put_seg 1 small_table 3 9 after_four_puts = Done tt s' /\
    seg_wf small_table s' /\ lock s' = false /\
    hs_get_seg small_table 3 s' = Done 9 s'.
Proof.
  apply (hs_put_then_get small_table after_four_puts 3 9 0 1 0).
  - unfold seg_wf. simpl. repeat split; lia.
  - reflexivity.
  - reflexivity.
  - split; [lia|]. intros j Hj. rewrite Z.bits_0 in Hj. discriminate.
  - intros j Hj. rewrite Z.bits_0 in Hj. discriminate.
  - simpl. lia.
  - simpl. lia.
  - simpl. lia.
  - lia.
  - reflexivity.
  - intros j Hj. assert (j = 0) as -> by lia. vm_compute. discriminate.
Defined.

(** ** Removal, then lookup *)

Lemma bits_below_clear_bit hop n j :
  bits_below hop n -> 0 <= j ->
  bits_below (Z.land hop (Z.lnot (Z.shiftl 1 j))) n.
Proof.
  intros [Hnn Hb] Hj. split.
  - apply Z.land_nonneg. left. exact Hnn.
  - intros k Hk. rewrite Z.land_spec in Hk.
    apply andb_true_iff in Hk as [Hk _]. exact (Hb k Hk).
Qed.

Lemma testbit_clear_bit hop j k :
  0 <= j -> 0 <= k ->
  Z.testbit (Z.land hop (Z.lnot (Z.shiftl 1 j))) k
  = Z.testbit hop k && negb (j =? k).
Proof.
  intros Hj Hk.
  rewrite Z.land_spec, Z.lnot_spec, Z.shiftl_1_l, Z.pow2_bits_eqb by assumption.
  reflexivity.
Qed.

(** Lines 227-230 on a bucket [p] at offset [p - start] from the home,
    the offset being a defined shift count: the bucket is emptied and
    the bit is cleared. *)
Lemma unplace_effect start p hop bS bP s :
  bucket_at s start = Some bS ->
  bucket_at s p = Some bP ->
  hop_info bS = hop ->
  0 <= p - start < 31 ->
  exists s',
    (put_hkey p NULL ;;;
     put_data p NULL ;;;
     hop <- get_hop_info start ;;
     m <- shl1 (p - start) ;;
     put_hop_info start (Z.land hop (Z.lnot m))) s = Done tt s' /\
    same_frame s s' /\
    hop_info_at s' start
      = Some (Z.land hop (Z.lnot (Z.shiftl 1 (p - start)))) /\
    hkey_at s' p = Some NULL /\
    (forall q, q <> p ->
       hkey_at s' q = hkey_at s q /\ data_at s' q = data_at s q) /\
    (forall q, q <> start -> hop_info_at s' q = hop_info_at s q).
Proof.
  intros HS HP Hhop Hoff.
  destruct (put_hkey_effect p NULL bP s HP) as (s1 & R1 & F1 & A1 & O1).
  destruct (put_data_effect p NULL _ s1 A1) as (s2 & R2 & F2 & A2 & O2).
  simpl in A2.
  assert (HS2 : exists x, bucket_at s2 start = Some x /\ hop_info x = hop /\
                  (start = p -> hkey x = NULL) /\ (start <> p -> hkey x = hkey bS)).
  { destruct (Z.eq_dec start p) as [E|Hne].
    - subst p. rewrite HS in HP. inversion HP; subst bP.
      eexists. split; [exact A2|]. simpl. tauto.
    - exists bS. rewrite O2, O1 by exact Hne. tauto. }
  destruct HS2 as (x & Hx & Hxhop & Hxp & Hxne).
  destruct (put_hop_info_effect start
              (Z.land hop (Z.lnot (Z.shiftl 1 (p - start)))) x s2 Hx)
    as (s3 & R3 & F3 & A3 & O3).
  exists s3. split.
  { rewrite (bind_done _ _ _ _ _ R1), (bind_done _ _ _ _ _ R2).
    rewrite (bind_done _ _ _ _ _ (get_hop_info_bucket_at _ _ _ Hx)).
    rewrite (bind_done _ _ _ _ _ (shl1_at _ s2 Hoff)).
    rewrite Hxhop. exact R3. }
  split; [eauto using same_frame_trans|].
  split; [unfold hop_info_at; rewrite A3; reflexivity|].
  split.
  { unfold hkey_at. destruct (Z.eq_dec start p) as [E|Hne].
    - rewrite <- E, A3. simpl. f_equal. auto.
    - rewrite O3, A2 by auto. reflexivity. }
  split.
  - intros q Hq. unfold hkey_at, data_at.
    destruct (Z.eq_dec q start) as [->|Hne].
    + assert (x = bS) as ->.
      { rewrite O2, O1, HS in Hx by auto. congruence. }
      rewrite A3, HS. split; reflexivity.
    + rewrite O3, O2, O1 by auto. split; reflexivity.
  - intros q Hq. unfold hop_info_at. rewrite O3 by exact Hq.
    destruct (Z.eq_dec q p) as [->|Hne].
    + rewrite A2, HP. reflexivity.
    + rewrite O2, O1 by exact Hne. reflexivity.
Qed.

(** X3.  Remove, then look up.  Let the key sit in the bucket at offset
    [j] from its home, with bit [j] set in the home's bitmap, in no other
    bucket of the neighbourhood, and not past the end of the bucket array
    ([start + j] is a valid index); let [j] be below 31, the width at
    which the shift of line 230 is defined.  With the lock free,
    [hs_remove] returns the bucket's value, empties the bucket and keeps
    the timestamp; a following [hs_get] of the key returns [NULL].  The
    lock is held when [hs_remove] returns. *)
Theorem hs_remove_then_get table s hk hop j :
  seg_wf table s ->
  lock s = false ->
  hop_info_at s (hk mod n_buckets_in_segment table) = Some hop ->
  bits_below hop (n_buckets_in_segment table) ->
  Z.testbit hop j = true ->
  j < 31 ->
  hk mod n_buckets_in_segment table + j < n_buckets_in_segment table ->
  hkey_at s (hk mod n_buckets_in_segment table + j) = Some hk ->
  (forall j', Z.testbit hop j' = true -> j' <> j ->
     hkey_at s (slot table (hk mod n_buckets_in_segment table) j') <> Some hk) ->
  exists d s',
    data_at s (hk mod n_buckets_in_segment table + j) = Some d /\
    hs_remove_seg table hk s = Done d s' /\
    hkey_at s' (hk mod n_buckets_in_segment table + j) = Some NULL /\
    timestamp s' = timestamp s /\
    lock s' = true /\
    hs_get_seg table hk s' = Done NULL s'.
Proof.
  intros Hwf Hlock Hhop Hbits Hbit Hj31 Hend Hkey Huniq.
  set (B := n_buckets_in_segment table) in *.
  set (start := hk mod B) in *.
  assert (HB : 0 < B) by exact (proj1 Hwf).
  assert (Hstart : 0 <= start < B) by (apply Z.mod_pos_bound; exact HB).
  destruct (bits_below_testbit _ _ _ Hbits Hbit) as [Hj0 HjB].
  assert (Hslot : slot table start j = start + j)
    by (apply slot_small; fold B; lia).
  (* the scan finds the bucket at offset [j] *)
  destruct (check_neighborhood_scan table s start hk hop Hwf Hstart Hhop Hbits)
    as (r & Hrun & Hr).
  assert (Hr' : r = Some (start + j)).
  { destruct r as [p|].
    - destruct Hr as (j0 & _ & Hbit0 & -> & Hk0 & _).
      destruct (Z.eq_dec j0 j) as [->|Hne]; [rewrite Hslot; reflexivity|].
      destruct (Huniq j0 Hbit0 Hne Hk0).
    - exfalso. apply (Hr j); [lia | exact Hbit|]. rewrite Hslot. exact Hkey. }
  subst r. apply scan_under_lock in Hrun.
  set (s1 := set_lock true s) in *.
  assert (Hwf1 : seg_wf table s1) by exact Hwf.
  unfold hop_info_at in Hhop.
  destruct (bucket_at s start) as [bS|] eqn:EbS; [|discriminate].
  inversion Hhop as [Hhop'].
  destruct (bucket_at_in_range table s1 (start + j) Hwf1 ltac:(fold B; lia))
    as (bP & _ & HbP).
  destruct (unplace_effect start (start + j) hop bS bP s1 EbS HbP Hhop'
              ltac:(lia))
    as (s' & Hrun' & Hframe & A1 & A2 & Hother & _).
  replace (start + j - start) with j in A1 by lia.
  exists (data bP), s'.
  split; [unfold data_at; change (bucket_at s (start + j)) with (bucket_at s1 (start + j));
          rewrite HbP; reflexivity|].
  split.
  { unfold hs_remove_seg. rewrite umod_bind by lia. fold B start.
    rewrite (bind_done _ _ _ _ _ (acquire_free s Hlock)). fold s1.
    rewrite (bind_done _ _ _ _ _ Hrun).
    rewrite (bind_done _ _ _ _ _ (get_data_bucket_at _ _ s1 HbP)).
    unfold bind in Hrun' |- *.
    destruct (put_hkey (start + j) NULL s1) as [[] t1| | |]; try discriminate.
    destruct (put_data (start + j) NULL t1) as [[] t2| | |]; try discriminate.
    destruct (get_hop_info start t2) as [h t3| | |]; try discriminate.
    destruct (shl1 (start + j - start) t3) as [m t4| | |]; try discriminate.
    rewrite Hrun'. reflexivity. }
  split; [exact A2|].
  destruct Hframe as (Hlen & Hlast & Hlk & Hcnt & Hts).
  split; [exact Hts|]. split; [rewrite Hlk; reflexivity|].
  (* the scan of the new state finds nothing *)
  assert (Hwf' : seg_wf table s').
  { apply (seg_wf_same_frame table s1); [|exact Hwf1]. repeat split; assumption. }
  set (hop' := Z.land hop (Z.lnot (Z.shiftl 1 j))) in *.
  assert (Hbits' : bits_below hop' B) by (apply bits_below_clear_bit; assumption).
  destruct (check_neighborhood_scan table s' start hk hop' Hwf' Hstart A1 Hbits')
    as (r & Hrun2 & Hr2).
  rewrite (hs_get_seg_scan table hk s' r HB Hrun2).
  destruct r as [p|]; [exfalso|reflexivity].
  destruct Hr2 as (j0 & _ & Hbit0 & -> & Hk0 & _).
  destruct (bits_below_testbit _ _ _ Hbits' Hbit0) as [Hj00 Hj0B].
  unfold hop' in Hbit0. rewrite testbit_clear_bit in Hbit0 by assumption.
  apply andb_true_iff in Hbit0 as [Hbit0 Hne].
  apply negb_true_iff, Z.eqb_neq in Hne.
  apply (Huniq j0 Hbit0 ltac:(lia)).
  assert (Hq : slot table start j0 <> start + j).
  { rewrite <- Hslot. intros E.
    apply (slot_inj table start j0 j) in E; [lia | exact Hstart | lia | lia]. }
  rewrite (proj1 (Hother _ Hq)) in Hk0. exact Hk0.
Qed.

Lemma bits_below_15 : bits_below 15 16.
Proof.
  split; [lia|]. intros j Hj.
  destruct (Z.lt_ge_cases j 16) as [|Hge]; [assumption|].
  rewrite (Z.bits_above_log2 15 j) in Hj; [discriminate | lia |].
  change (Z.log2 15) with 3. lia.
Qed.

Lemma testbit_15 j : Z.testbit 15 j = true -> 0 <= j < 4.
Proof.
  intros Hj. split.
  - destruct (Z.lt_ge_cases j 0) as [Hneg|]; [|assumption].
    rewrite Z.testbit_neg_r in Hj by exact Hneg. discriminate.
  - destruct (Z.lt_ge_cases j 4) as [|Hge]; [assumption|].
    rewrite (Z.bits_above_log2 15 j) in Hj; [discriminate | lia |].
    change (Z.log2 15) with 3. lia.
Qed.

Lemma hs_remove_then_get_witness :
  exists d s',
    data_at after_four_puts (48 mod 16 + 2) = Some d /\
    hs_remove_seg small_table 48 after_four_puts = Done d s' /\
    hkey_at s' (48 mod 16 + 2) = Some NULL /\
    timestamp s' = timestamp after_four_puts /\
    lock s' = true /\
    hs_get_seg small_table 48 s' = Done NULL s'.
Proof.
  apply (hs_remove_then_get small_table after_four_puts 48 15 2).
  - unfold seg_wf. simpl. repeat split; lia.
  - reflexivity.
  - reflexivity.
  - exact bits_below_15.
  - reflexivity.
  - lia.
  - vm_compute. reflexivity.
  - reflexivity.
  - intros j' Hbit Hne. apply testbit_15 in Hbit.
    assert (j' = 0 \/ j' = 1 \/ j' = 3) as [->|[->| ->]] by lia;
      vm_compute; discriminate.
Defined.

(** ** Insertion into a full neighbourhood *)

(** X4.  If the key is absent, the lock free and none of the [add_range]
    buckets from the key's home, wrapping, is empty, then [hs_put] does
    not return: each pass leaves the segment as it found it, reaches
    [resize()], and is started again. *)
Theorem hs_put_full_never_returns table s hk v hop :
  seg_wf table s ->
  lock s = false ->
  hop_info_at s (hk mod n_buckets_in_segment table) = Some hop ->
  bits_below hop (n_buckets_in_segment table) ->
  absent table s hk hop ->
  0 <= add_range table ->
  (forall j, 0 <= j < add_range table ->
     hkey_at s (slot table (hk mod n_buckets_in_segment table) j) <> Some NULL) ->
  forall fuel, hs_put_seg fuel table hk v s = Timeout.
Proof.
  intros Hwf Hlock Hhop Hbits Habs HA Hocc.
  apply hs_put_seg_falls_through_forever. intros fuel.
  set (B := n_buckets_in_segment table) in *.
  set (start := hk mod B) in *.
  assert (HB : 0 < B) by exact (proj1 Hwf).
  assert (Hstart : 0 <= start < B) by (apply Z.mod_pos_bound; exact HB).
  set (s1 := set_lock true s).
  assert (Hwf1 : seg_wf table s1) by exact Hwf.
  pose proof (scan_under_lock _ _ _ _ _ (absent_scan table s hk hop Hwf Hhop Hbits Habs))
    as Hscan. fold B start s1 in Hscan.
  pose proof (probe_free_bucket_exhausts table s1 start Hwf1
                (Z.to_nat (add_range table)) 0) as Hprobe.
  rewrite slot_zero in Hprobe by exact Hstart.
  rewrite Z2Nat.id, Z.add_0_l in Hprobe by exact HA.
  specialize (Hprobe Hocc).
  rewrite <- (proj2 (proj2 Hwf)) in Hprobe.
  unfold hs_put_pass. rewrite umod_bind by lia. fold B start.
  rewrite (bind_done get_last_bucket _ s (last_bucket s) s eq_refl).
  rewrite (bind_done _ _ _ _ _ (acquire_free s Hlock)). fold s1.
  rewrite (bind_done _ _ _ _ _ Hscan).
  rewrite (bind_done _ _ _ _ _ Hprobe). cbn beta iota.
  rewrite Z.ltb_irrefl.
  unfold bind, ret, LOCK_RELEASE. unfold s1.
  rewrite release_after_acquire by exact Hlock. reflexivity.
Qed.

Lemma hs_put_full_never_returns_witness :
  hs_put_seg 7 tiny_table 4 9 tiny_full = Timeout.
Proof.
  refine (hs_put_full_never_returns tiny_table tiny_full 4 9 1 _ _ _ _ _ _ _ 7%nat).
  - unfold seg_wf. simpl. repeat split; lia.
  - reflexivity.
  - reflexivity.
  - split; [lia|]. intros j Hj.
    destruct (Z.lt_ge_cases j 2) as [|Hge]; [assumption|].
    rewrite (Z.bits_above_log2 1 j) in Hj; [discriminate | lia |].
    change (Z.log2 1) with 0. lia.
  - intros j Hj.
    assert (Hj0 : j = 0).
    { destruct (Z.eq_dec j 0) as [|Hne]; [assumption|].
      destruct (Z.lt_ge_cases j 0) as [Hneg|Hpos].
      - rewrite Z.testbit_neg_r in Hj by exact Hneg. discriminate.
      - rewrite (Z.bits_above_log2 1 j) in Hj; [discriminate | lia |].
        change (Z.log2 1) with 0. lia. }
    subst j. vm_compute. discriminate.
  - simpl. lia.
  - intros j Hj. simpl in Hj.
    assert (j = 0 \/ j = 1) as [->| ->] by lia; vm_compute; discriminate.
Defined.

(** ** Removal of a key that is not there *)

(** X5.  If the key is in no bucket that the bitmap of its home points to
    and the lock is free, [hs_remove] returns [NULL] and the segment after
    it is the segment before it. *)
Theorem hs_remove_absent table s hk hop :
  seg_wf table s ->
  lock s = false ->
  hop_info_at s (hk mod n_buckets_in_segment table) = Some hop ->
  bits_below hop (n_buckets_in_segment table) ->
  absent table s hk hop ->
  hs_remove_seg table hk s = Done NULL s.
Proof.
  intros Hwf Hlock Hhop Hbits Habs.
  apply hs_remove_seg_absent; [pose proof (proj1 Hwf); lia | exact Hlock |].
  apply (absent_scan table s hk hop); assumption.
Qed.

Lemma hs_remove_absent_witness :
  hs_remove_seg small_table 80 after_four_puts = Done NULL after_four_puts.
Proof.
  apply (hs_remove_absent small_table after_four_puts 80 15).
  - unfold seg_wf. simpl. repeat split; lia.
  - reflexivity.
  - reflexivity.
  - exact bits_below_15.
  - intros j Hbit. apply testbit_15 in Hbit.
    assert (j = 0 \/ j = 1 \/ j = 2 \/ j = 3) as [->|[->|[->| ->]]] by lia;
      vm_compute; discriminate.
Defined.

(** ** Displacement: witnesses and bounds *)

Lemma swap_into_free_in_range_witness :
  swap_into_free small_table 6 3 3 2 six_puts_locked
  = Done (Some (3 + 2), 3)
      (displaced six_puts_locked 6 3 3 2
         (mk_bucket 4 3 7) (mk_bucket 6 35 0) zero_bucket).
Proof.
  apply (swap_into_free_in_range small_table six_puts_locked 6 3 3 2
           (mk_bucket 4 3 7) (mk_bucket 6 35 0) zero_bucket);
    try lia; try reflexivity.
  simpl. lia.
Defined.


Lemma find_closer_free_bucket_failure_witness :
  find_closer_free_bucket small_table 4 (set_lock true after_four_puts)
    = Done (None, 0) (set_lock true after_four_puts) /\
  (set_lock true after_four_puts = set_lock true after_four_puts /\ 0 = 0).
Proof.
  assert (H : find_closer_free_bucket small_table 4 (set_lock true after_four_puts)
              = Done (None, 0) (set_lock true after_four_puts))
    by (vm_compute; reflexivity).
  split; [exact H|].
  exact (find_closer_free_bucket_failure small_table 4 _ 0 _ H).
Defined.

(** X9.  A displacement that succeeds reports a distance of at least 1
    and below the hop range, wherever the new free bucket lies. *)
Theorem displacement_distance_in_hop_range table fb s fb' d s' :
  1 <= hop_range table <= 2 ^ 32 ->
  find_closer_free_bucket table fb s = Done (Some fb', d) s' ->
  1 <= d < hop_range table.
Proof.
  intros HR H. unfold find_closer_free_bucket in H.
  apply find_closer_loop_distance in H. simpl in H.
  rewrite uint_wrap_small, Z2Nat.id in H by lia. lia.
Qed.

Lemma displacement_distance_in_hop_range_witness :
  1 <= hop_range small_table <= 2 ^ 32 /\
  find_closer_free_bucket small_table 6 six_puts_locked
    = Done (Some 5, 3)
        (displaced six_puts_locked 6 3 3 2
           (mk_bucket 4 3 7) (mk_bucket 6 35 0) zero_bucket) /\
  1 <= 3 < hop_range small_table.
Proof.
  assert (HR : 1 <= hop_range small_table <= 2 ^ 32) by (simpl; lia).
  assert (H : find_closer_free_bucket small_table 6 six_puts_locked
              = Done (Some 5, 3)
                  (displaced six_puts_locked 6 3 3 2
                     (mk_bucket 4 3 7) (mk_bucket 6 35 0) zero_bucket))
    by (vm_compute; reflexivity).
  split; [exact HR|]. split; [exact H|].
  exact (displacement_distance_in_hop_range small_table 6 _ 5 3 _ HR H).
Defined.

(** X10.  With a hop range between 1 and [2^32], one pass of [hs_put]
    over the segment makes at most one displacement: its
    [do ... while] loop never needs a third round. *)
Theorem hs_put_pass_two_rounds n table hk dat s :
  1 <= hop_range table <= 2 ^ 32 ->
  hs_put_pass (S (S n)) table hk dat s <> Timeout.
Proof. intros HR. apply no_timeout_hs_put_pass. exact HR. Qed.

Lemma hs_put_pass_two_rounds_witness :
  1 <= hop_range small_table <= 2 ^ 32 /\
  hs_put_pass 2 small_table 64 7 (set_lock false six_puts_locked) <> Timeout.
Proof.
  assert (HR : 1 <= hop_range small_table <= 2 ^ 32) by (simpl; lia).
  split; [exact HR|].
  exact (hs_put_pass_two_rounds 0 small_table 64 7 _ HR).
Defined.

Lemma hs_remove_seg_keeps_lock_witness :
  exists s',
    hs_remove_seg small_table 48 after_four_puts = Done 3 s' /\
    3 <> NULL /\ lock s' = true.
Proof.
  eexists.
  assert (Hd : 3 <> NULL) by (unfold NULL; lia).
  split; [vm_compute; reflexivity|]. split; [exact Hd|].
  apply (hs_remove_seg_keeps_lock small_table 48 after_four_puts 3);
    [vm_compute; reflexivity | exact Hd].
Defined.

(** ** Routing, for every key width and segment count *)

Lemma on_segment_out_of_range {A} (m : M A) table idx :
  Z.of_nat (length (segment_array table)) <= idx ->
  on_segment table idx m = Fault.
Proof.
  intros H. unfold on_segment.
  destruct (idx <? 0); [reflexivity|].
  rewrite lookup_ge_None_2 by lia. reflexivity.
Qed.

(** X12.  Let the table have [2^k] segments, let [key_t] be more than
    [2 * k] bits wide, and let the mask have at most 31 bits to set
    ([key_bits - k <= 31]), so that every shift [1 << i] of the loop is
    defined.  Then the index that [get_segment_idx] returns is
    [2 ^ (key_bits - k) - 1] for every key, which is no index of the
    segment array: [hs_get], [hs_put] and [hs_remove] access memory
    outside it, whatever the key. *)
Theorem routing_out_of_range key_bits calculate_hash table k key v fuel :
  0 <= k ->
  n_segments table = 2 ^ k ->
  Z.of_nat (length (segment_array table)) = 2 ^ k ->
  2 * k < key_bits ->
  key_bits - k <= 31 ->
  get_segment_idx key_bits table (calculate_hash key)
    = Some (2 ^ (key_bits - k) - 1) /\
  hs_get key_bits calculate_hash table key = Fault /\
  hs_put key_bits calculate_hash fuel table key v = Fault /\
  hs_remove key_bits calculate_hash table key = Fault.
Proof.
  intros Hk Hn Hlen Hw H31.
  assert (Hlog : Z.log2_up (n_segments table) = k)
    by (rewrite Hn; apply Z.log2_up_pow2; exact Hk).
  assert (Hidx : get_segment_idx key_bits table (calculate_hash key)
                 = Some (2 ^ (key_bits - k) - 1)).
  { rewrite get_segment_idx_value by lia. rewrite Hlog. reflexivity. }
  split; [exact Hidx|].
  assert (Hout : Z.of_nat (length (segment_array table))
                 <= 2 ^ (key_bits - k) - 1).
  { rewrite Hlen.
    assert (H1 : 2 ^ (k + 1) <= 2 ^ (key_bits - k))
      by (apply Z.pow_le_mono_r; lia).
    rewrite Z.pow_add_r in H1 by lia. change (2 ^ 1) with 2 in H1.
    pose proof (Z.pow_pos_nonneg 2 k ltac:(lia) Hk). lia. }
  unfold hs_get, hs_put, hs_remove. rewrite Hidx.
  repeat split; apply on_segment_out_of_range; exact Hout.
Qed.

Lemma routing_out_of_range_witness :
  get_segment_idx 32 four_segment_table 17 = Some (2 ^ (32 - 2) - 1) /\
  hs_get 32 (fun key => key) four_segment_table 17 = Fault /\
  hs_put 32 (fun key => key) 3 four_segment_table 17 5 = Fault /\
  hs_remove 32 (fun key => key) four_segment_table 17 = Fault.
Proof.
  apply (routing_out_of_range 32 (fun key => key) four_segment_table 2 17 5 3);
    try reflexivity; lia.
Defined.

(** ** A table as [hs_new] returns it *)

Lemma check_neighborhood_no_buckets table start hk s :
  bucket_array s = [] -> check_neighborhood table start hk s = Fault.
Proof.
  intros H. unfold check_neighborhood, get_hop_info, bind, load.
  destruct (start <? 0); [reflexivity|]. rewrite H. reflexivity.
Qed.

Lemma on_segment_of_new {A} (m : M A) n_segs n_bkts hop add tries h idx :
  m zero_segment = Fault ->
  on_segment (hs_new n_segs n_bkts hop add tries h) idx m = Fault.
Proof.
  intros Hm. unfold on_segment.
  destruct (idx <? 0); [reflexivity|].
  rewrite hs_new_segments.
  destruct (replicate (Z.to_nat n_segs) zero_segment !! Z.to_nat idx)
    as [seg|] eqn:E; [|reflexivity].
  apply lookup_replicate in E as [-> _]. rewrite Hm. reflexivity.
Qed.

(** X13.  Whatever the arguments of [hs_new] and whatever the key, every
    [hs_get], [hs_put] and [hs_remove] on the table that [hs_new] returns
    runs into undefined behaviour: the routing makes an undefined shift
    or gives a segment index out of range, the bucket count is 0, or the
    segment that is selected has no buckets. *)
Theorem operations_on_new_table_fault
    key_bits calculate_hash n_segs n_bkts hop add tries h key v fuel :
  hs_get key_bits calculate_hash (hs_new n_segs n_bkts hop add tries h) key
    = Fault /\
  hs_put key_bits calculate_hash (S fuel) (hs_new n_segs n_bkts hop add tries h)
    key v = Fault /\
  hs_remove key_bits calculate_hash (hs_new n_segs n_bkts hop add tries h) key
    = Fault.
Proof.
  split; [|split].
  - unfold hs_get.
    destruct (get_segment_idx _ _ _) as [idx|]; [|reflexivity].
    apply on_segment_of_new.
    unfold hs_get_seg. apply umod_bind_fault. intros start.
    destruct (Z.to_nat (max_tries (hs_new n_segs n_bkts hop add tries h)));
      cbn [hs_get_loop]; unfold bind at 1, get_timestamp; unfold bind at 1;
      rewrite check_neighborhood_no_buckets by reflexivity; reflexivity.
  - unfold hs_put.
    destruct (get_segment_idx _ _ _) as [idx|]; [|reflexivity].
    apply on_segment_of_new.
    assert (Hpass : hs_put_pass (S fuel) (hs_new n_segs n_bkts hop add tries h)
                      (calculate_hash key) v zero_segment = Fault).
    { unfold hs_put_pass. apply umod_bind_fault. intros start.
      rewrite (bind_done get_last_bucket _ zero_segment _ _ eq_refl).
      rewrite (bind_done LOCK_ACQUIRE _ zero_segment tt
                 (set_lock true zero_segment) eq_refl).
      unfold bind at 1.
      rewrite check_neighborhood_no_buckets by reflexivity. reflexivity. }
    cbn [hs_put_seg]. unfold bind at 1. rewrite Hpass. reflexivity.
  - unfold hs_remove.
    destruct (get_segment_idx _ _ _) as [idx|]; [|reflexivity].
    apply on_segment_of_new.
    unfold hs_remove_seg. apply umod_bind_fault. intros start.
    rewrite (bind_done LOCK_ACQUIRE _ zero_segment tt (set_lock true zero_segment)
               eq_refl).
    unfold bind at 1.
    rewrite check_neighborhood_no_buckets by reflexivity. reflexivity.
Qed.

(** ** Insertion leaves the other keys where they are *)

Lemma first_match_agree table s s' start hop hop' k r r' :
  first_match_from table s start hop k 0 r ->
  first_match_from table s' start hop' k 0 r' ->
  (forall j, 0 <= j ->
     (Z.testbit hop j = true /\ hkey_at s (slot table start j) = Some k) <->
     (Z.testbit hop' j = true /\ hkey_at s' (slot table start j) = Some k)) ->
  r = r'.
Proof.
  intros Hr Hr' Hiff.
  destruct r as [p|], r' as [p'|]; simpl in Hr, Hr'.
  - destruct Hr as (j & Hj & Hbit & -> & Hk & Hmin).
    destruct Hr' as (j' & Hj' & Hbit' & -> & Hk' & Hmin').
    destruct (Z.lt_trichotomy j j') as [Hlt|[->|Hgt]]; [exfalso|reflexivity|exfalso].
    + destruct (proj1 (Hiff j Hj) (conj Hbit Hk)) as [Hb Hm].
      exact (Hmin' j ltac:(lia) Hb Hm).
    + destruct (proj2 (Hiff j' Hj') (conj Hbit' Hk')) as [Hb Hm].
      exact (Hmin j' ltac:(lia) Hb Hm).
  - exfalso. destruct Hr as (j & Hj & Hbit & -> & Hk & _).
    destruct (proj1 (Hiff j Hj) (conj Hbit Hk)) as [Hb Hm].
    exact (Hr' j Hj Hb Hm).
  - exfalso. destruct Hr' as (j' & Hj' & Hbit' & -> & Hk' & _).
    destruct (proj2 (Hiff j' Hj') (conj Hbit' Hk')) as [Hb Hm].
    exact (Hr j' Hj' Hb Hm).
  - reflexivity.
Qed.

(** X15.  Under the conditions of the insertion without displacement
    (the first empty bucket at a distance [d] below the hop range, the
    add range, the segment length and 31, the width at which the shift
    of line 166 is defined), the lookup of any other key (with a hashed
    key other than the empty mark) gives after the [hs_put] what it gave
    before it. *)
Theorem hs_put_keeps_other_keys table s hk v hop d fuel k' hop2 x :
  seg_wf table s ->
  lock s = false ->
  hop_info_at s (hk mod n_buckets_in_segment table) = Some hop ->
  bits_below hop (n_buckets_in_segment table) ->
  absent table s hk hop ->
  0 <= d < n_buckets_in_segment table ->
  d < hop_range table ->
  d < add_range table ->
  d < 31 ->
  hkey_at s (slot table (hk mod n_buckets_in_segment table) d) = Some NULL ->
  (forall j, 0 <= j < d ->
     hkey_at s (slot table (hk mod n_buckets_in_segment table) j) <> Some NULL) ->
  k' <> hk -> k' <> NULL ->
  hop_info_at s (k' mod n_buckets_in_segment table) = Some hop2 ->
  bits_below hop2 (n_buckets_in_segment table) ->
  hs_get_seg table k' s = Done x s ->
  exists s',
    hs_put_seg (S fuel) table hk v s = Done tt s' /\
    hs_get_seg table k' s' = Done x s'.
Proof.
  intros Hwf Hlock Hhop Hbits Habs Hd HdR HdA Hd31 Hfree Hocc Hk1 Hk2 Hhop2
    Hbits2 Hget.
  set (B := n_buckets_in_segment table) in *.
  set (start := hk mod B) in *.
  set (start2 := k' mod B) in *.
  assert (HB : 0 < B) by exact (proj1 Hwf).
  assert (Hstart : 0 <= start < B) by (apply Z.mod_pos_bound; exact HB).
  assert (Hstart2 : 0 <= start2 < B) by (apply Z.mod_pos_bound; exact HB).
  destruct (put_direct_pass table s hk v hop d Hwf Hlock Hhop Hbits Habs Hd
              HdR HdA Hd31 Hfree Hocc fuel)
    as (s4 & Hpass & Hframe & A1 & A2 & A3 & Hother & Hhops).
  fold B in A1, A2, A3, Hother, Hhops.
  fold start in A1, A2, A3, Hother, Hhops.
  set (fb := slot table start d) in *.
  set (s' := set_lock false s4).
  assert (Hwf' : seg_wf table s').
  { apply (seg_wf_set_lock table false).
    apply (seg_wf_same_frame table (set_lock true s)); [exact Hframe | exact Hwf]. }
  exists s'. split.
  { cbn [hs_put_seg]. rewrite (bind_done _ _ _ _ _ Hpass). reflexivity. }
  (* a bucket holds [k'] afterwards exactly when it held it before *)
  assert (HM : forall q, hkey_at s4 q = Some k' <-> hkey_at s q = Some k').
  { intros q. destruct (Z.eq_dec q fb) as [->|Hne].
    - rewrite A2, Hfree. split; intros E; inversion E; congruence.
    - rewrite (proj1 (Hother q Hne)). tauto. }
  (* the bitmap of the other key's home afterwards *)
  assert (Hhop2' : exists hop2',
            hop_info_at s' start2 = Some hop2' /\
            bits_below hop2' B /\
            forall j, 0 <= j ->
              (Z.testbit hop2 j = true /\ hkey_at s (slot table start2 j) = Some k') <->
              (Z.testbit hop2' j = true /\ hkey_at s' (slot table start2 j) = Some k')).
  { destruct (Z.eq_dec start2 start) as [E|Hne].
    - rewrite E in *. rewrite Hhop in Hhop2. inversion Hhop2; subst hop2.
      exists (Z.lor hop (Z.shiftl 1 d)). split; [exact A1|].
      split; [apply bits_below_set_bit; assumption|].
      intros j Hj. rewrite testbit_set_bit by lia.
      change (hkey_at s' (slot table start j)) with (hkey_at s4 (slot table start j)).
      rewrite HM. destruct (Z.eq_dec j d) as [->|Hjd].
      + fold fb. rewrite Hfree. split; intros [_ E']; inversion E'; congruence.
      + assert (Ed : (d =? j) = false) by (apply Z.eqb_neq; lia).
        rewrite Ed, orb_false_r. tauto.
    - exists hop2. split; [rewrite <- Hhop2; exact (Hhops start2 Hne)|].
      split; [exact Hbits2|].
      intros j Hj.
      change (hkey_at s' (slot table start2 j)) with (hkey_at s4 (slot table start2 j)).
      rewrite HM. tauto. }
  destruct Hhop2' as (hop2' & Hh2 & Hb2 & Hiff).
  destruct (check_neighborhood_scan table s start2 k' hop2 Hwf Hstart2 Hhop2 Hbits2)
    as (r & Hrun & Hr).
  destruct (check_neighborhood_scan table s' start2 k' hop2' Hwf' Hstart2 Hh2 Hb2)
    as (r' & Hrun' & Hr').
  assert (r = r') as <- by exact (first_match_agree _ _ _ _ _ _ _ _ _ Hr Hr' Hiff).
  rewrite (hs_get_seg_scan table k' s r HB Hrun) in Hget.
  rewrite (hs_get_seg_scan table k' s' r HB Hrun').
  destruct r as [p|]; [|inversion Hget; reflexivity].
  destruct Hr as (j & Hj & Hbit & -> & Hk & _).
  set (p := slot table start2 j) in *.
  assert (Hp : p <> fb).
  { intros E. rewrite E, Hfree in Hk. inversion Hk. congruence. }
  pose proof (slot_range table start2 j HB) as Hrange. fold p in Hrange.
  destruct (bucket_at_in_range table s p Hwf Hrange) as (b & _ & Hb).
  rewrite (get_data_bucket_at p b s Hb) in Hget. inversion Hget as [Hx].
  pose proof (proj2 (Hother p Hp)) as Hdata.
  unfold data_at in Hdata. rewrite Hb in Hdata.
  destruct (bucket_at s4 p) as [b'|] eqn:Eb'; [|discriminate].
  inversion Hdata as [Hd'].
  rewrite (get_data_bucket_at p b' s' Eb'). rewrite Hd'. reflexivity.
Qed.

Lemma hs_put_keeps_other_keys_witness :
  exists s',
    hs_put_seg 1 small_table 3 9 after_four_puts = Done tt s' /\
    hs_get_seg small_table 48 s' = Done 3 s'.
Proof.
  apply (hs_put_keeps_other_keys small_table after_four_puts 3 9 0 1 0 48 15 3).
  - unfold seg_wf. simpl. repeat split; lia.
  - reflexivity.
  - reflexivity.
  - split; [lia|]. intros j Hj. rewrite Z.bits_0 in Hj. discriminate.
  - intros j Hj. rewrite Z.bits_0 in Hj. discriminate.
  - simpl. lia.
  - simpl. lia.
  - simpl. lia.
  - lia.
  - reflexivity.
  - intros j Hj. assert (j = 0) as -> by lia. vm_compute. discriminate.
  - lia.
  - unfold NULL. lia.
  - reflexivity.
  - exact bits_below_15.
  - vm_compute. reflexivity.
Defined.

(** ** What no operation changes *)

Section Writers.

Context {X : Type} (f : hs_segment_t -> X).

Hypothesis f_store : forall p b, preserves f (store p b).
Hypothesis f_lock : forall b s, f (set_lock b s) = f s.
Hypothesis f_timestamp : forall t s, f (set_timestamp t s) = f s.

Let f_acquire : preserves f LOCK_ACQUIRE := preserves_lock_acquire f f_lock.
Let f_release : preserves f LOCK_RELEASE := preserves_lock_release f f_lock.
Let f_incr : preserves f incr_timestamp := preserves_incr_timestamp f f_timestamp.

Lemma writers_put_hkey p v : preserves f (put_hkey p v).
Proof. unfold put_hkey. frame. Qed.

Lemma writers_put_data p v : preserves f (put_data p v).
Proof. unfold put_data. frame. Qed.

Lemma writers_put_hop_info p v : preserves f (put_hop_info p v).
Proof. unfold put_hop_info. frame. Qed.

Lemma writers_swap_into_free table fb cb idx md :
  preserves f (swap_into_free table fb cb idx md).
Proof.
  unfold swap_into_free.
  frame; auto using writers_put_hkey, writers_put_data, writers_put_hop_info.
Qed.

Lemma writers_find_closer_free_bucket table fb :
  preserves f (find_closer_free_bucket table fb).
Proof.
  unfold find_closer_free_bucket.
  generalize (if fb - uint_wrap (hop_range table - 1) <? 0
              then fb - uint_wrap (hop_range table - 1) + n_buckets_in_segment table
              else fb - uint_wrap (hop_range table - 1)).
  induction (Z.to_nat (uint_wrap (hop_range table - 1))) as [|n IH]; intros cb.
  - apply preserves_ret.
  - cbn [find_closer_loop]. frame. apply writers_swap_into_free.
Qed.

Lemma writers_place_or_displace n table start hk dat fb d :
  preserves f (place_or_displace n table start hk dat fb d).
Proof.
  revert fb d. induction n as [|n IH]; intros fb d.
  - apply preserves_timeout.
  - cbn [place_or_displace].
    frame; auto using writers_put_hkey, writers_put_data, writers_put_hop_info,
      writers_find_closer_free_bucket.
Qed.

Lemma writers_probe_free_bucket n table fb d last :
  preserves f (probe_free_bucket n table fb d last).
Proof.
  revert fb d. induction n as [|n IH]; intros fb d; simpl; frame.
Qed.

Lemma writers_hs_put_seg fuel table hk dat :
  preserves f (hs_put_seg fuel table hk dat).
Proof.
  induction fuel as [|fuel IH].
  - apply preserves_timeout.
  - cbn [hs_put_seg]. unfold hs_resize, hs_put_pass.
    frame; auto using writers_probe_free_bucket, writers_place_or_displace.
Qed.

Lemma writers_hs_remove_seg table hk : preserves f (hs_remove_seg table hk).
Proof.
  unfold hs_remove_seg.
  frame; auto using writers_put_hkey, writers_put_data, writers_put_hop_info.
Qed.

End Writers.

Lemma shape_store p b : preserves shape (store p b).
Proof.
  intros s a s' H. unfold store in H.
  destruct (p <? 0); [discriminate|].
  destruct (bucket_array s !! Z.to_nat p); inversion H.
  unfold shape. simpl. rewrite length_insert. reflexivity.
Qed.

(** X14.  Neither [hs_put] (with or without displacement) nor [hs_remove]
    changes the number of buckets of the segment or its [last_bucket]:
    a segment of the shape its table announces keeps that shape. *)
Theorem put_and_remove_keep_shape table fuel hk v d s s' :
  seg_wf table s ->
  hs_put_seg fuel table hk v s = Done tt s' \/
  hs_remove_seg table hk s = Done d s' ->
  seg_wf table s'.
Proof.
  intros (HB & Hlen & Hlast) H.
  assert (Hshape : shape s' = shape s).
  { destruct H as [H|H].
    - assert (P : preserves shape (hs_put_seg fuel table hk v))
        by (apply writers_hs_put_seg; first [apply shape_store | reflexivity]).
      exact (P _ _ _ H).
    - assert (P : preserves shape (hs_remove_seg table hk))
        by (apply writers_hs_remove_seg; first [apply shape_store | reflexivity]).
      exact (P _ _ _ H). }
  unfold shape in Hshape. inversion Hshape as [[Hl Hla]].
  repeat split; [exact HB | rewrite Hl; exact Hlen | rewrite Hla; exact Hlast].
Qed.

Lemma put_and_remove_keep_shape_witness :
  exists s',
    hs_put_seg 2 small_table 64 7 (set_lock false six_puts_locked) = Done tt s' /\
    seg_wf small_table s'.
Proof.
  eexists. split; [vm_compute; reflexivity|].
  apply (put_and_remove_keep_shape small_table 2 64 7 0
           (set_lock false six_puts_locked)).
  - unfold seg_wf. simpl. repeat split; lia.
  - left. vm_compute. reflexivity.
Defined.

(** ** Lookup and the lock *)

Lemma lock_blind_get_timestamp : lock_blind get_timestamp.
Proof. intros s b. reflexivity. Qed.

Lemma lock_blind_get_data p : lock_blind (get_data p).
Proof.
  apply lock_blind_bind; [apply lock_blind_load | intros; apply lock_blind_ret].
Qed.

Lemma lock_blind_hs_get_loop n table start hk tries :
  lock_blind (hs_get_loop n table start hk tries).
Proof.
  revert tries. induction n as [|n IH]; intros tries; cbn [hs_get_loop];
    (apply lock_blind_bind; [apply lock_blind_get_timestamp|]; intros ts;
     apply lock_blind_bind; [apply lock_blind_check_neighborhood|];
     intros [p|]; [apply lock_blind_get_data|];
     apply lock_blind_bind; [apply lock_blind_get_timestamp|]; intros ts';
     destruct ((tries + 1 <? max_tries table) && negb (ts =? ts'));
     [|apply lock_blind_ret]).
  - apply lock_blind_timeout.
  - apply IH.
Qed.

(** X16.  [hs_get] neither takes nor looks at the segment lock: on a
    segment whose lock is held it does exactly what it does on the same
    segment with the lock free, and the lock is as it was afterwards. *)
Theorem hs_get_seg_ignores_lock table hk s b :
  hs_get_seg table hk (set_lock b s) = with_lock b (hs_get_seg table hk s).
Proof.
  unfold hs_get_seg. revert s b.
  apply lock_blind_bind; [apply lock_blind_umod|].
  intros start. apply lock_blind_hs_get_loop.
Qed.

(** ** Removal leaves the other keys where they are *)

Lemma remove_found_effect table s hk hop j :
  seg_wf table s ->
  lock s = false ->
  hop_info_at s (hk mod n_buckets_in_segment table) = Some hop ->
  bits_below hop (n_buckets_in_segment table) ->
  Z.testbit hop j = true ->
  j < 31 ->
  hk mod n_buckets_in_segment table + j < n_buckets_in_segment table ->
  hkey_at s (hk mod n_buckets_in_segment table + j) = Some hk ->
  (forall j', Z.testbit hop j' = true -> j' <> j ->
     hkey_at s (slot table (hk mod n_buckets_in_segment table) j') <> Some hk) ->
  exists d s',
    hs_remove_seg table hk s = Done d s' /\
    same_frame (set_lock true s) s' /\
    hop_info_at s' (hk mod n_buckets_in_segment table)
      = Some (Z.land hop (Z.lnot (Z.shiftl 1 j))) /\
    hkey_at s' (hk mod n_buckets_in_segment table + j) = Some NULL /\
    (forall q, q <> hk mod n_buckets_in_segment table + j ->
       hkey_at s' q = hkey_at s q /\ data_at s' q = data_at s q) /\
    (forall q, q <> hk mod n_buckets_in_segment table ->
       hop_info_at s' q = hop_info_at s q).
Proof.
  intros Hwf Hlock Hhop Hbits Hbit Hj31 Hend Hkey Huniq.
  set (B := n_buckets_in_segment table) in *.
  set (start := hk mod B) in *.
  assert (HB : 0 < B) by exact (proj1 Hwf).
  assert (Hstart : 0 <= start < B) by (apply Z.mod_pos_bound; exact HB).
  destruct (bits_below_testbit _ _ _ Hbits Hbit) as [Hj0 HjB].
  assert (Hslot : slot table start j = start + j)
    by (apply slot_small; fold B; lia).
  destruct (check_neighborhood_scan table s start hk hop Hwf Hstart Hhop Hbits)
    as (r & Hrun & Hr).
  assert (Hr' : r = Some (start + j)).
  { destruct r as [p|].
    - destruct Hr as (j0 & _ & Hbit0 & -> & Hk0 & _).
      destruct (Z.eq_dec j0 j) as [->|Hne]; [rewrite Hslot; reflexivity|].
      destruct (Huniq j0 Hbit0 Hne Hk0).
    - exfalso. apply (Hr j); [lia | exact Hbit|]. rewrite Hslot. exact Hkey. }
  subst r. apply scan_under_lock in Hrun.
  set (s1 := set_lock true s) in *.
  assert (Hwf1 : seg_wf table s1) by exact Hwf.
  unfold hop_info_at in Hhop.
  destruct (bucket_at s start) as [bS|] eqn:EbS; [|discriminate].
  inversion Hhop as [Hhop'].
  destruct (bucket_at_in_range table s1 (start + j) Hwf1 ltac:(fold B; lia))
    as (bP & _ & HbP).
  destruct (unplace_effect start (start + j) hop bS bP s1 EbS HbP Hhop'
              ltac:(lia))
    as (s' & Hrun' & Hframe & A1 & A2 & Hother & Hhops).
  replace (start + j - start) with j in A1 by lia.
  exists (data bP), s'. split.
  { unfold hs_remove_seg. rewrite umod_bind by lia. fold B start.
    rewrite (bind_done _ _ _ _ _ (acquire_free s Hlock)). fold s1.
    rewrite (bind_done _ _ _ _ _ Hrun).
    rewrite (bind_done _ _ _ _ _ (get_data_bucket_at _ _ s1 HbP)).
    unfold bind in Hrun' |- *.
    destruct (put_hkey (start + j) NULL s1) as [[] t1| | |]; try discriminate.
    destruct (put_data (start + j) NULL t1) as [[] t2| | |]; try discriminate.
    destruct (get_hop_info start t2) as [h t3| | |]; try discriminate.
    destruct (shl1 (start + j - start) t3) as [m t4| | |]; try discriminate.
    rewrite Hrun'. reflexivity. }
  rewrite ?Hhop'.
  split; [exact Hframe|]. split; [exact A1|]. split; [exact A2|].
  split; [exact Hother | exact Hhops].
Qed.

(** X17.  Under the conditions of the removal of a key that is found (at
    offset [j] of its home, with [j] below 31, the width at which the
    shift of line 230 is defined, not past the end of the array, nowhere
    else in the neighbourhood), the lookup of any other key (with a
    hashed key other than the empty mark) gives after the [hs_remove]
    what it gave before it. *)
Theorem hs_remove_keeps_other_keys table s hk hop j k' hop2 x :
  seg_wf table s ->
  lock s = false ->
  hop_info_at s (hk mod n_buckets_in_segment table) = Some hop ->
  bits_below hop (n_buckets_in_segment table) ->
  Z.testbit hop j = true ->
  j < 31 ->
  hk mod n_buckets_in_segment table + j < n_buckets_in_segment table ->
  hkey_at s (hk mod n_buckets_in_segment table + j) = Some hk ->
  (forall j', Z.testbit hop j' = true -> j' <> j ->
     hkey_at s (slot table (hk mod n_buckets_in_segment table) j') <> Some hk) ->
  k' <> hk -> k' <> NULL ->
  hop_info_at s (k' mod n_buckets_in_segment table) = Some hop2 ->
  bits_below hop2 (n_buckets_in_segment table) ->
  hs_get_seg table k' s = Done x s ->
  exists d s',
    hs_remove_seg table hk s = Done d s' /\
    hs_get_seg table k' s' = Done x s'.
Proof.
  intros Hwf Hlock Hhop Hbits Hbit Hj31 Hend Hkey Huniq Hk1 Hk2 Hhop2 Hbits2
    Hget.
  destruct (remove_found_effect table s hk hop j Hwf Hlock Hhop Hbits Hbit
              Hj31 Hend Hkey Huniq)
    as (d & s' & Hrun & Hframe & A1 & A2 & Hother & Hhops).
  set (B := n_buckets_in_segment table) in *.
  set (start := hk mod B) in *.
  set (start2 := k' mod B) in *.
  assert (HB : 0 < B) by exact (proj1 Hwf).
  assert (Hstart : 0 <= start < B) by (apply Z.mod_pos_bound; exact HB).
  assert (Hstart2 : 0 <= start2 < B) by (apply Z.mod_pos_bound; exact HB).
  destruct (bits_below_testbit _ _ _ Hbits Hbit) as [Hj0 HjB].
  assert (Hslot : slot table start j = start + j)
    by (apply slot_small; fold B; lia).
  set (p := start + j) in *.
  assert (Hwf' : seg_wf table s').
  { apply (seg_wf_same_frame table (set_lock true s)); [exact Hframe | exact Hwf]. }
  exists d, s'. split; [exact Hrun|].
  assert (HM : forall q, hkey_at s' q = Some k' <-> hkey_at s q = Some k').
  { intros q. destruct (Z.eq_dec q p) as [->|Hne].
    - rewrite A2, Hkey. split; intros E; inversion E; congruence.
    - rewrite (proj1 (Hother q Hne)). tauto. }
  assert (Hhop2' : exists hop2',
            hop_info_at s' start2 = Some hop2' /\
            bits_below hop2' B /\
            forall i, 0 <= i ->
              (Z.testbit hop2 i = true /\ hkey_at s (slot table start2 i) = Some k') <->
              (Z.testbit hop2' i = true /\ hkey_at s' (slot table start2 i) = Some k')).
  { destruct (Z.eq_dec start2 start) as [E|Hne].
    - rewrite E in *. rewrite Hhop in Hhop2. inversion Hhop2; subst hop2.
      exists (Z.land hop (Z.lnot (Z.shiftl 1 j))). split; [exact A1|].
      split; [apply bits_below_clear_bit; assumption|].
      intros i Hi. rewrite testbit_clear_bit by assumption.
      rewrite HM. destruct (Z.eq_dec i j) as [->|Hij].
      + rewrite Hslot, Hkey. split; intros [_ E']; inversion E'; congruence.
      + assert (Ed : (j =? i) = false) by (apply Z.eqb_neq; lia).
        rewrite Ed, andb_true_r. tauto.
    - exists hop2. split; [rewrite <- Hhop2; exact (Hhops start2 Hne)|].
      split; [exact Hbits2|].
      intros i Hi. rewrite HM. tauto. }
  destruct Hhop2' as (hop2' & Hh2 & Hb2 & Hiff).
  destruct (check_neighborhood_scan table s start2 k' hop2 Hwf Hstart2 Hhop2 Hbits2)
    as (r & Hrun1 & Hr).
  destruct (check_neighborhood_scan table s' start2 k' hop2' Hwf' Hstart2 Hh2 Hb2)
    as (r' & Hrun' & Hr').
  assert (r = r') as <- by exact (first_match_agree _ _ _ _ _ _ _ _ _ Hr Hr' Hiff).
  rewrite (hs_get_seg_scan table k' s r HB Hrun1) in Hget.
  rewrite (hs_get_seg_scan table k' s' r HB Hrun').
  destruct r as [q|]; [|inversion Hget; reflexivity].
  destruct Hr as (i & Hi & Hbiti & -> & Hk & _).
  set (q := slot table start2 i) in *.
  assert (Hq : q <> p).
  { intros E. rewrite E, Hkey in Hk. inversion Hk. congruence. }
  pose proof (slot_range table start2 i HB) as Hrange. fold q in Hrange.
  destruct (bucket_at_in_range table s q Hwf Hrange) as (b & _ & Hb).
  rewrite (get_data_bucket_at q b s Hb) in Hget. inversion Hget as [Hx].
  pose proof (proj2 (Hother q Hq)) as Hdata.
  unfold data_at in Hdata. rewrite Hb in Hdata.
  destruct (bucket_at s' q) as [b'|] eqn:Eb'; [|discriminate].
  inversion Hdata as [Hd'].
  rewrite (get_data_bucket_at q b' s' Eb'). rewrite Hd'. reflexivity.
Qed.

Lemma hs_remove_keeps_other_keys_witness :
  exists d s',
    hs_remove_seg small_table 48 after_four_puts = Done d s' /\
    hs_get_seg small_table 64 s' = Done 4 s'.
Proof.
  apply (hs_remove_keeps_other_keys small_table after_four_puts 48 15 2 64 15 4).
  - unfold seg_wf. simpl. repeat split; lia.
  - reflexivity.
  - reflexivity.
  - exact bits_below_15.
  - reflexivity.
  - lia.
  - vm_compute. reflexivity.
  - reflexivity.
  - intros j' Hbit Hne. apply testbit_15 in Hbit.
    assert (j' = 0 \/ j' = 1 \/ j' = 3) as [->|[->| ->]] by lia;
      vm_compute; discriminate.
  - lia.
  - unfold NULL. lia.
  - reflexivity.
  - exact bits_below_15.
  - vm_compute. reflexivity.
Defined.
